(** * Verification of [blockchain.py]: hashing, proof of work, ledger, validator

    The development embeds the [Blockchain] class and the [mine_block]
    driver of [src/blockchain.py].  Python values are modelled as follows:

    - [int] is [Z]; [f'{n}'] is its decimal rendering;
    - [str] is [string], one character per code point (code points below
      256); [str.encode()] is UTF-8; module [Unicode] repeats the hasher and
      the validator with the [sender] and [recipient] of a transaction as
      lists of code points of any size, lone surrogates included;
    - [bytes] is [list N] (every element below 256);
    - a [float] is carried as the text [json.dumps] writes for it, which
      for a finite value is [float.__repr__]: the program never computes
      with a float, it only stores the result of [time()] (or of
      [float(amount)]) and serialises it;
    - [hashlib.sha256] is SHA-256 as in FIPS 180-4, on 32-bit words held in
      [N] with the wrap-around written out;
    - the [while] loop of [proof_of_work] has no bound in the source; here it
      takes fuel and reports [OutOfFuel] when the fuel does not suffice;
    - the console program reads its input from a list of lines and writes to
      a string; [float()], [time()] and [uuid4()] are supplied by an
      environment ([Cli.Env]). *)

From Stdlib Require Import NArith ZArith List String Ascii Bool Lia DecimalString.
From Stdlib Require DecimalFacts DecimalPos DecimalZ.
From stdpp Require Import base list.

Import ListNotations.
Local Open Scope string_scope.

(** ** SHA-256 (FIPS 180-4) *)

Module SHA256.
Local Open Scope N_scope.

Definition mask32 : N := 0xFFFFFFFF.

(** Addition modulo [2^32]. *)
Definition add32 (x y : N) : N := N.land (x + y) mask32.

Definition not32 (x : N) : N := N.lxor x mask32.

(** Rotate right and shift right of a 32-bit word. *)
Definition rotr (n x : N) : N :=
  N.lor (N.shiftr x n) (N.land (N.shiftl x (32 - n)) mask32).

Definition shr (n x : N) : N := N.shiftr x n.

Definition Ch (x y z : N) : N := N.lxor (N.land x y) (N.land (not32 x) z).
Definition Maj (x y z : N) : N :=
  N.lxor (N.lxor (N.land x y) (N.land x z)) (N.land y z).
Definition Sigma0 (x : N) : N := N.lxor (N.lxor (rotr 2 x) (rotr 13 x)) (rotr 22 x).
Definition Sigma1 (x : N) : N := N.lxor (N.lxor (rotr 6 x) (rotr 11 x)) (rotr 25 x).
Definition sigma0 (x : N) : N := N.lxor (N.lxor (rotr 7 x) (rotr 18 x)) (shr 3 x).
Definition sigma1 (x : N) : N := N.lxor (N.lxor (rotr 17 x) (rotr 19 x)) (shr 10 x).

(** The first sixty-four primes. *)
Definition primes : list N :=
  [ 2; 3; 5; 7; 11; 13; 17; 19; 23; 29; 31; 37; 41; 43; 47; 53;
    59; 61; 67; 71; 73; 79; 83; 89; 97; 101; 103; 107; 109; 113; 127; 131;
    137; 139; 149; 151; 157; 163; 167; 173; 179; 181; 191; 193; 197; 199; 211; 223;
    227; 229; 233; 239; 241; 251; 257; 263; 269; 271; 277; 281; 283; 293; 307; 311 ].

(** The largest [r] below [2^k] with [r ^ e <= n], one bit at a time. *)
Fixpoint int_root (e : N) (k : nat) (n r : N) : N :=
  match k with
  | O => r
  | S k' =>
      let c := r + 2 ^ N.of_nat k' in
      int_root e k' n (if c ^ e <=? n then c else r)
  end.

(** The first 32 bits of the fractional part of the [e]-th root of [p]. *)
Definition root_fraction (e p : N) : N :=
  N.land (int_root e 40 (p * 2 ^ (32 * e)) 0) mask32.

(** The round constants: cube roots of the first sixty-four primes. *)
Definition K : list N := Eval cbv in map (root_fraction 3) primes.

(** The initial hash value: square roots of the first eight primes. *)
Definition H0 : list N := Eval cbv in map (root_fraction 2) (firstn 8 primes).

(** Big-endian bytes of a number, [n] bytes wide. *)
Fixpoint be_bytes (n : nat) (x : N) : list N :=
  match n with
  | O => []
  | S n' => N.land (N.shiftr x (8 * N.of_nat n')) 0xFF :: be_bytes n' x
  end.

Definition be_word (bs : list N) : N :=
  fold_left (fun acc b => N.lor (N.shiftl acc 8) b) bs 0.

(** Padding: a [1] bit, zeros up to 56 modulo 64 bytes, then the bit length
    of the message on 64 bits. *)
Definition pad (msg : list N) : list N :=
  let len := N.of_nat (length msg) in
  let zeros := N.to_nat ((119 - len mod 64) mod 64) in
  msg ++ 0x80 :: repeat 0 zeros ++ be_bytes 8 (8 * len).

(** The working variables [a .. h] and the sliding window of the sixteen
    most recent schedule words. *)
Record round_state := RoundState {
  va : N; vb : N; vc : N; vd : N; ve : N; vf : N; vg : N; vh : N;
  window : list N
}.

Definition next_word (w : list N) : N :=
  add32 (add32 (sigma1 (nth 14 w 0)) (nth 9 w 0))
        (add32 (sigma0 (nth 1 w 0)) (nth 0 w 0)).

Definition round (s : round_state) (k : N) : round_state :=
  let w := window s in
  let wt := nth 0 w 0 in
  let t1 := add32 (add32 (add32 (vh s) (Sigma1 (ve s))) (add32 (Ch (ve s) (vf s) (vg s)) k)) wt in
  let t2 := add32 (Sigma0 (va s)) (Maj (va s) (vb s) (vc s)) in
  RoundState (add32 t1 t2) (va s) (vb s) (vc s) (add32 (vd s) t1) (ve s) (vf s) (vg s)
             (tl w ++ [next_word w]).

(** Sixteen big-endian words of a 64-byte block. *)
Fixpoint words_of (n : nat) (bs : list N) : list N :=
  match n with
  | O => []
  | S n' => be_word (firstn 4 bs) :: words_of n' (skipn 4 bs)
  end.

Definition compress (h : list N) (block : list N) : list N :=
  let s0 := RoundState (nth 0 h 0) (nth 1 h 0) (nth 2 h 0) (nth 3 h 0)
                       (nth 4 h 0) (nth 5 h 0) (nth 6 h 0) (nth 7 h 0)
                       (words_of 16 block) in
  let s := fold_left round K s0 in
  [ add32 (nth 0 h 0) (va s); add32 (nth 1 h 0) (vb s);
    add32 (nth 2 h 0) (vc s); add32 (nth 3 h 0) (vd s);
    add32 (nth 4 h 0) (ve s); add32 (nth 5 h 0) (vf s);
    add32 (nth 6 h 0) (vg s); add32 (nth 7 h 0) (vh s) ].

Fixpoint blocks (n : nat) (h : list N) (bs : list N) : list N :=
  match n with
  | O => h
  | S n' => blocks n' (compress h (firstn 64 bs)) (skipn 64 bs)
  end.

(** The eight hash words after the last block of the padded message. *)
Definition final_state (msg : list N) : list N :=
  let p := pad msg in
  blocks (Nat.div (length p) 64) H0 p.

(** [hashlib.sha256(msg).digest()] *)
Definition digest (msg : list N) : list N :=
  flat_map (be_bytes 4) (final_state msg).

(** Eight words, each below [2^32]. *)
Definition word_state (h : list N) : Prop :=
  length h = 8%nat /\ Forall (fun w => w < 2 ^ 32) h.

(** The eight words as one number below [2^256]. *)
Definition pack (h : list N) : N :=
  fold_right (fun w acc => w + 2 ^ 32 * acc) 0 h.

Definition hex_digit (d : N) : ascii :=
  ascii_of_N (if d <? 10 then 48 + d else 87 + d).

Definition hex_byte (b : N) : string :=
  String (hex_digit (N.shiftr b 4)) (String (hex_digit (N.land b 0xF)) EmptyString).

(** [hashlib.sha256(msg).hexdigest()]: lowercase hexadecimal. *)
Definition hexdigest (msg : list N) : string :=
  fold_right (fun b acc => hex_byte b ++ acc)%string EmptyString (digest msg).

End SHA256.

(** ** Python values *)

(** A [float], carried as the text [json.dumps] writes for it
    ([float.__repr__] when the value is finite). *)
Record PyFloat := mkFloat { float_repr : string }.

(** The numbers an [amount] can be: [mine_block] passes the [int] [1], the
    menu passes [float(amount)]. *)
Inductive Number :=
| Int (z : Z)
| Float (f : PyFloat).

(** [f'{n}'] for an [int]. *)
Definition str_of_int (z : Z) : string := NilZero.string_of_int (Z.to_int z).

(** [f'{h}'] for a value that is a [str] or [None]. *)
Definition str_of_optional (h : option string) : string :=
  match h with
  | Some s => s
  | None => "None"
  end.

(** [s.encode()]: UTF-8, for code points below 256. *)
Definition encode_char (c : ascii) : list N :=
  let n := N_of_ascii c in
  if (n <? 128)%N then [n]
  else [N.lor 0xC0 (N.shiftr n 6); N.lor 0x80 (N.land n 0x3F)].

Definition encode (s : string) : list N :=
  flat_map encode_char (list_ascii_of_string s).

(** [hashlib.sha256(s.encode()).hexdigest()] *)
Definition sha256_hex (s : string) : string := SHA256.hexdigest (encode s).

(** ** [json.dumps(_, sort_keys=True)] *)

Module Json.

Definition dquote : ascii := ascii_of_nat 34.
Definition backslash : ascii := ascii_of_nat 92.

Definition hex4 (n : N) : string :=
  String (SHA256.hex_digit (N.land (N.shiftr n 12) 0xF))
  (String (SHA256.hex_digit (N.land (N.shiftr n 8) 0xF))
  (String (SHA256.hex_digit (N.land (N.shiftr n 4) 0xF))
  (String (SHA256.hex_digit (N.land n 0xF)) EmptyString))).

(** One character under [ensure_ascii=True]: the backslash and the double
    quote are escaped, the short escapes are used for the five control
    characters that have one, and everything else outside [' ' .. '~']
    becomes [\uXXXX]. *)
Definition escape_char (c : ascii) : string :=
  let n := N_of_ascii c in
  if (n =? 92)%N then String backslash (String backslash EmptyString)
  else if (n =? 34)%N then String backslash (String dquote EmptyString)
  else if (n =? 8)%N then String backslash "b"
  else if (n =? 12)%N then String backslash "f"
  else if (n =? 10)%N then String backslash "n"
  else if (n =? 13)%N then String backslash "r"
  else if (n =? 9)%N then String backslash "t"
  else if ((32 <=? n) && (n <=? 126))%N then String c EmptyString
  else String backslash ("u" ++ hex4 n).

Fixpoint escape (s : string) : string :=
  match s with
  | EmptyString => EmptyString
  | String c s' => escape_char c ++ escape s'
  end.

Definition str (s : string) : string :=
  String dquote (escape s ++ String dquote EmptyString).

Definition optional_str (h : option string) : string :=
  match h with
  | Some s => str s
  | None => "null"
  end.

Definition float (f : PyFloat) : string := float_repr f.

Definition number (x : Number) : string :=
  match x with
  | Int z => str_of_int z
  | Float f => float f
  end.

(** A key of an object followed by the key separator [": "]. *)
Definition key (k : string) : string := str k ++ ": ".

(** A list: items separated by [", "] between brackets. *)
Fixpoint items (xs : list string) : string :=
  match xs with
  | [] => EmptyString
  | [x] => x
  | x :: xs' => x ++ ", " ++ items xs'
  end.

Definition array (xs : list string) : string := "[" ++ items xs ++ "]".

Definition object (fields : list string) : string := "{" ++ items fields ++ "}".

End Json.

(** ** Blocks and transactions *)

(** The dictionary built by [new_transaction]. *)
Record Transaction := mkTransaction {
  sender : string;
  recipient : string;
  amount : Number
}.

(** The dictionary built by [new_block].  ['current_hash'] is [None] while
    the block is being built and a [str] once it is stored. *)
Record Block := mkBlock {
  index : Z;
  timestamp : PyFloat;
  transactions : list Transaction;
  proof : Z;
  previous_hash : string;
  current_hash : option string
}.

Definition set_current_hash (h : option string) (b : Block) : Block :=
  mkBlock (index b) (timestamp b) (transactions b) (proof b) (previous_hash b) h.

(** Keys come out in sorted order: [amount], [recipient], [sender]. *)
Definition json_transaction (t : Transaction) : string :=
  Json.object
    [ Json.key "amount" ++ Json.number (amount t);
      Json.key "recipient" ++ Json.str (recipient t);
      Json.key "sender" ++ Json.str (sender t) ].

(** [json.dumps(block, sort_keys=True)]: every key of the dictionary, in
    sorted order. *)
Definition json_block (b : Block) : string :=
  Json.object
    [ Json.key "current_hash" ++ Json.optional_str (current_hash b);
      Json.key "index" ++ str_of_int (index b);
      Json.key "previous_hash" ++ Json.str (previous_hash b);
      Json.key "proof" ++ str_of_int (proof b);
      Json.key "timestamp" ++ Json.float (timestamp b);
      Json.key "transactions" ++ Json.array (map json_transaction (transactions b)) ].

(** [Blockchain.hash] *)
Definition hash (block : Block) : string := sha256_hex (json_block block).

(** [Blockchain.valid_proof] *)
Definition valid_proof (last_proof proof : Z) (last_hash : string) : bool :=
  let guess := str_of_int last_proof ++ str_of_int proof ++ last_hash in
  let guess_hash := sha256_hex guess in
  String.eqb (substring 0 2 guess_hash) "00".

(** ** Outcomes of a call *)

Inductive exn := IndexError.

Inductive outcome (A : Type) :=
| Returns (a : A)
| Raises (e : exn)
| OutOfFuel.

Arguments Returns {A} a.
Arguments Raises {A} e.
Arguments OutOfFuel {A}.

Definition outcome_map {A B : Type} (f : A -> B) (o : outcome A) : outcome B :=
  match o with
  | Returns a => Returns (f a)
  | Raises e => Raises e
  | OutOfFuel => OutOfFuel
  end.

(** The loop of [proof_of_work], entered with the candidate [proof]. *)
Fixpoint proof_of_work_loop (fuel : nat) (last_proof : Z) (last_hash : string)
    (proof : Z) : outcome Z :=
  match fuel with
  | O => OutOfFuel
  | S fuel' =>
      if negb (valid_proof last_proof proof last_hash)
      then proof_of_work_loop fuel' last_proof last_hash (proof + 1)%Z
      else Returns proof
  end.

(** The search of [proof_of_work] on its two seeds: [proof = 0], then the
    loop. *)
Definition search (fuel : nat) (last_proof : Z) (last_hash : string) : outcome Z :=
  proof_of_work_loop fuel last_proof last_hash 0.

(** [Blockchain.proof_of_work] *)
Definition proof_of_work (fuel : nat) (last_block : Block) : outcome Z :=
  let last_proof := proof last_block in
  let last_hash := hash last_block in
  search fuel last_proof last_hash.

(** ** The validator *)

(** The loop of [valid_chain].  It runs while [current_index < len(chain)]
    and [current_index] grows by one each turn, so [len(chain)] turns of fuel
    always suffice (lemma [valid_chain_loop_links] below). *)
Fixpoint valid_chain_loop (fuel : nat) (chain : list Block) (last_block : Block)
    (current_index : nat) : outcome bool :=
  match fuel with
  | O => OutOfFuel
  | S fuel' =>
      if (current_index <? length chain)%nat then
        match chain !! current_index with
        | None => Raises IndexError
        | Some block =>
            if negb (String.eqb (previous_hash block) (hash last_block))
            then Returns false
            else if negb (valid_proof (proof last_block) (proof block)
                                      (str_of_optional (current_hash last_block)))
            then Returns false
            else valid_chain_loop fuel' chain block (S current_index)
        end
      else Returns true
  end.

(** [Blockchain.valid_chain]: [chain[0]] raises [IndexError] on an empty
    list. *)
Definition valid_chain (chain : list Block) : outcome bool :=
  match chain !! 0%nat with
  | None => Raises IndexError
  | Some last_block => valid_chain_loop (length chain) chain last_block 1
  end.

(** ** The ledger *)

(** The two attributes of a [Blockchain] object. *)
Record Blockchain := mkBlockchain {
  current_transactions : list Transaction;
  chain : list Block
}.

(** A method: it runs on the object, may change it, and returns, raises or
    runs out of fuel.  What was changed before an exception stays
    changed. *)
Definition M (A : Type) : Type := Blockchain -> outcome A * Blockchain.

Definition ret {A} (a : A) : M A := fun self => (Returns a, self).

Definition bind {A B} (m : M A) (k : A -> M B) : M B :=
  fun self =>
    match m self with
    | (Returns a, self') => k a self'
    | (Raises e, self') => (Raises e, self')
    | (OutOfFuel, self') => (OutOfFuel, self')
    end.

Definition lift {A} (o : outcome A) : M A := fun self => (o, self).

Definition get : M Blockchain := fun self => (Returns self, self).

Definition put (self' : Blockchain) : M unit := fun _ => (Returns tt, self').

Notation "x <- m ;; k" := (bind m (fun x => k))
  (at level 100, m at next level, right associativity).
Notation "m ;;; k" := (bind m (fun _ => k))
  (at level 100, right associativity).

(** [self.chain[-1]] *)
Definition last_block : M Block :=
  self <- get ;;
  match last (chain self) with
  | Some b => ret b
  | None => lift (Raises IndexError)
  end.

(** Truth value of a [str] or [None] argument. *)
Definition truthy (s : option string) : bool :=
  match s with
  | Some (String _ _) => true
  | _ => false
  end.

(** [Blockchain.new_block]; [now] is what [time()] returns. *)
Definition new_block (now : PyFloat) (proof : Z) (previous_hash : option string)
    : M Block :=
  self <- get ;;
  prev <- (if truthy previous_hash then ret (str_of_optional previous_hash)
           else b <- last_block ;; ret (hash b)) ;;
  let block :=
    mkBlock (Z.of_nat (length (chain self)) + 1)%Z now (current_transactions self)
            proof prev None in
  let block := set_current_hash (Some (hash block)) block in
  put (mkBlockchain [] (chain self ++ [block])) ;;;
  ret block.

(** [Blockchain.new_transaction] *)
Definition new_transaction (sender recipient : string) (amount : Number) : M Z :=
  self <- get ;;
  put (mkBlockchain
         (current_transactions self ++ [mkTransaction sender recipient amount])
         (chain self)) ;;;
  b <- last_block ;;
  ret (index b + 1)%Z.

(** [Blockchain.__init__]: the two empty lists, then the genesis block. *)
Definition empty_ledger : Blockchain := mkBlockchain [] [].

Definition init (now : PyFloat) : outcome Block * Blockchain :=
  new_block now 100 (Some "1") empty_ledger.

(** [s.replace('-', '')] *)
Fixpoint remove_dashes (s : string) : string :=
  match s with
  | EmptyString => EmptyString
  | String c s' =>
      if Ascii.eqb c "-"%char then remove_dashes s' else String c (remove_dashes s')
  end.

Definition no_transactions : string := "No transactions to mine.".

Definition block_mined (b : Block) : string :=
  "New block mined! Block index: " ++ str_of_int (index b).

(** [mine_block(blockchain)]; [uuid] is [str(uuid4())] and [now] is what
    [time()] returns.  The result is the line printed. *)
Definition mine_block (fuel : nat) (uuid : string) (now : PyFloat) : M string :=
  blockchain <- get ;;
  match current_transactions blockchain with
  | [] => ret no_transactions
  | _ :: _ =>
      last <- last_block ;;
      proof <- lift (proof_of_work fuel last) ;;
      new_transaction "0" (remove_dashes uuid) (Int 1) ;;;
      block <- new_block now proof None ;;
      ret (block_mined block)
  end.

(** ** The transaction lists as objects

    In the source a block's ['transactions'] is the very list object that
    [self.current_transactions] named when the block was built, and
    [new_transaction] appends to the named object in place.  [Store] keeps
    the list objects in a heap and the references in the ledger; the
    properties section shows that on every ledger in which no block holds
    the pending list, which [new_block] ensures by binding the attribute to
    a new list, each method of [Store] does what the method above does on
    the ledger's value. *)
Module Store.

(** A block that refers to its transaction list by address. *)
Record BlockObj := mkBlockObj {
  obj_index : Z;
  obj_timestamp : PyFloat;
  obj_transactions : nat;
  obj_proof : Z;
  obj_previous_hash : string;
  obj_current_hash : option string
}.

(** The list objects, the address [self.current_transactions] holds, and
    the chain. *)
Record Ledger := mkLedger {
  heap : list (list Transaction);
  pending : nat;
  blocks : list BlockObj
}.

Definition deref (h : list (list Transaction)) (a : nat) : list Transaction :=
  default [] (h !! a).

(** The dictionary a block is when it is read. *)
Definition block_value (h : list (list Transaction)) (o : BlockObj) : Block :=
  mkBlock (obj_index o) (obj_timestamp o) (deref h (obj_transactions o))
          (obj_proof o) (obj_previous_hash o) (obj_current_hash o).

(** The ledger with every reference followed. *)
Definition value (l : Ledger) : Blockchain :=
  mkBlockchain (deref (heap l) (pending l)) (block_value (heap l) <$> blocks l).

(** [self.current_transactions.append(...)], then [self.last_block]. *)
Definition new_transaction (sender recipient : string) (amount : Number)
    (l : Ledger) : outcome Z * Ledger :=
  let appended := (deref (heap l) (pending l) ++ [mkTransaction sender recipient amount])%list in
  let l' := mkLedger (<[pending l := appended]> (heap l)) (pending l) (blocks l) in
  match last (blocks l') with
  | Some o => (Returns (obj_index o + 1)%Z, l')
  | None => (Raises IndexError, l')
  end.

(** The block takes the pending list object itself; the attribute is then
    bound to a new, empty list. *)
Definition new_block (now : PyFloat) (proof : Z) (previous_hash : option string)
    (l : Ledger) : outcome BlockObj * Ledger :=
  let prev :=
    if truthy previous_hash then Returns (str_of_optional previous_hash)
    else match last (blocks l) with
         | Some o => Returns (hash (block_value (heap l) o))
         | None => Raises IndexError
         end in
  match prev with
  | Returns prev =>
      let block :=
        mkBlockObj (Z.of_nat (length (blocks l)) + 1)%Z now (pending l) proof prev None in
      let block :=
        mkBlockObj (obj_index block) (obj_timestamp block) (obj_transactions block)
                   (obj_proof block) (obj_previous_hash block)
                   (Some (hash (block_value (heap l) block))) in
      (Returns block,
       mkLedger (heap l ++ [[]]) (length (heap l)) (blocks l ++ [block]))
  | Raises e => (Raises e, l)
  | OutOfFuel => (OutOfFuel, l)
  end.

Definition mine_block (fuel : nat) (uuid : string) (now : PyFloat) (l : Ledger)
    : outcome string * Ledger :=
  match deref (heap l) (pending l) with
  | [] => (Returns no_transactions, l)
  | _ :: _ =>
      match last (blocks l) with
      | None => (Raises IndexError, l)
      | Some last_block =>
          match proof_of_work fuel (block_value (heap l) last_block) with
          | Returns proof =>
              let (_, l1) := new_transaction "0" (remove_dashes uuid) (Int 1) l in
              match new_block now proof None l1 with
              | (Returns block, l2) => (Returns (block_mined (block_value (heap l2) block)), l2)
              | (Raises e, l2) => (Raises e, l2)
              | (OutOfFuel, l2) => (OutOfFuel, l2)
              end
          | Raises e => (Raises e, l)
          | OutOfFuel => (OutOfFuel, l)
          end
      end
  end.

(** [self.current_transactions = []; self.chain = []] *)
Definition empty_ledger : Ledger := mkLedger [[]] 0 [].

Definition init (now : PyFloat) : outcome BlockObj * Ledger :=
  new_block now 100 (Some "1") empty_ledger.

(** Every reference names an object, and no block holds the pending
    list. *)
Definition separate (l : Ledger) : Prop :=
  (pending l < length (heap l))%nat
  /\ Forall (fun o => (obj_transactions o < length (heap l))%nat
                      /\ obj_transactions o <> pending l) (blocks l).

End Store.

(** ** Sequences of calls *)

(** A call of the ledger's interface, with what the environment supplies to
    it: the fuel of the search, [str(uuid4())] and [time()]. *)
Inductive op :=
| SubmitTransaction (sender recipient : string) (amount : Number)
| MineBlock (fuel : nat) (uuid : string) (now : PyFloat).

(** The line printed by a call ([None] for [new_transaction], which prints
    nothing here) and the object after it. *)
Definition run_op (o : op) (self : Blockchain) : outcome (option string) * Blockchain :=
  match o with
  | SubmitTransaction s r a =>
      (_ <- new_transaction s r a ;; ret None) self
  | MineBlock fuel uuid now =>
      (line <- mine_block fuel uuid now ;; ret (Some line)) self
  end.

(** The object after a sequence of calls.  A call that raises or runs out of
    fuel leaves the object as it was at that point. *)
Definition run_ops (ops : list op) (self : Blockchain) : Blockchain :=
  fold_left (fun self o => snd (run_op o self)) ops self.

(** A freshly constructed ledger. *)
Definition fresh (now : PyFloat) : Blockchain := snd (init now).

(** ** Specification vocabulary *)

(** The block [new_block] stores: built with [current_hash = None], hashed,
    and the digest written into [current_hash]. *)
Definition stored_block (idx : Z) (now : PyFloat) (txs : list Transaction)
    (proof : Z) (prev : string) : Block :=
  let block := mkBlock idx now txs proof prev None in
  set_current_hash (Some (hash block)) block.

(** The two checks [valid_chain] makes on a pair of neighbours. *)
Definition valid_link (last_block block : Block) : bool :=
  String.eqb (previous_hash block) (hash last_block)
  && valid_proof (proof last_block) (proof block)
                 (str_of_optional (current_hash last_block)).

(** The checks along a chain, by recursion on the list. *)
Fixpoint valid_links (last_block : Block) (rest : list Block) : bool :=
  match rest with
  | [] => true
  | block :: rest' => valid_link last_block block && valid_links block rest'
  end.

(** Block indices count from 1 without a gap. *)
Definition contiguous (chain : list Block) : Prop :=
  forall (k : nat) (b : Block), chain !! k = Some b -> index b = (Z.of_nat k + 1)%Z.

(** The invariant of the ledger's chain. *)
Definition ledger_inv (self : Blockchain) : Prop :=
  chain self <> [] /\ contiguous (chain self).

(** ** A concrete session

    The scenario of the specification: a new ledger, one submitted
    transaction, one mined block.  The clock reads [t0] at construction and
    [t1] when the block is forged; both are exact binary fractions, printed
    by [float.__repr__] as written here. *)
Definition t0 : PyFloat := mkFloat "1700000000.5".
Definition t1 : PyFloat := mkFloat "1700000060.25".
Definition uuid0 : string := "3f2b8c1e-9d4a-4e7b-8a6f-1c2d3e4f5a6b".

Definition session : list op :=
  [ SubmitTransaction "0" "addrA" (Int 1); MineBlock 64 uuid0 t1 ].

(** The genesis block of the ledger constructed at [t0]. *)
Definition genesis0 : Block :=
  stored_block 1 t0 [] 100 "1".

(** A chain of two blocks that the validator accepts: the second block
    carries a proof found for the seeds the validator uses, the proof of the
    genesis block and its stored [current_hash]. *)
Definition accepted_chain : list Block :=
  [ genesis0;
    stored_block 2 t1 [mkTransaction "0" "addrA" (Int 1)] 147 (hash genesis0) ].

(** A ledger in which the genesis block holds the pending list object:
    what [new_block] would leave behind if it did not bind
    [self.current_transactions] to a new list. *)
Definition shared_ledger : Store.Ledger :=
  Store.mkLedger [[]] 0 [Store.mkBlockObj 1 t0 0 100 "1" None].

(** ** Tampering with a block *)

Definition set_index (i : Z) (b : Block) : Block :=
  mkBlock i (timestamp b) (transactions b) (proof b) (previous_hash b) (current_hash b).
Definition set_timestamp (t : PyFloat) (b : Block) : Block :=
  mkBlock (index b) t (transactions b) (proof b) (previous_hash b) (current_hash b).
Definition set_transactions (txs : list Transaction) (b : Block) : Block :=
  mkBlock (index b) (timestamp b) txs (proof b) (previous_hash b) (current_hash b).
Definition set_proof (p : Z) (b : Block) : Block :=
  mkBlock (index b) (timestamp b) (transactions b) p (previous_hash b) (current_hash b).
Definition set_previous_hash (h : string) (b : Block) : Block :=
  mkBlock (index b) (timestamp b) (transactions b) (proof b) h (current_hash b).

(** [tampered b b']: [b'] is [b] with one field other than the stored hash
    given a different value. *)
Inductive tampered (b : Block) : Block -> Prop :=
| tampered_index (i : Z) : i <> index b -> tampered b (set_index i b)
| tampered_timestamp (t : PyFloat) : t <> timestamp b -> tampered b (set_timestamp t b)
| tampered_transactions (txs : list Transaction) :
    txs <> transactions b -> tampered b (set_transactions txs b)
| tampered_proof (p : Z) : p <> proof b -> tampered b (set_proof p b)
| tampered_previous_hash (h : string) :
    h <> previous_hash b -> tampered b (set_previous_hash h b).

(** The checks along a whole chain ([True] for an empty list). *)
Definition links (chain : list Block) : bool :=
  match chain with
  | [] => true
  | b0 :: rest => valid_links b0 rest
  end.

(** The genesis block of the session with its index replaced, and the
    chain made of such a block and a successor linked to it.  The successor
    carries the proof of [accepted_chain], found for the proof and the stored
    [current_hash] of the genesis block, which the replacement leaves
    alone. *)
Definition variant (i : N) : Block := set_index (Z.of_N i) genesis0.

Definition variant_chain (i : N) : list Block :=
  [ variant i;
    stored_block 2 t1 [mkTransaction "0" "addrA" (Int 1)] 147 (hash (variant i)) ].

(** The digest of a block as a number. *)
Definition hash_number (b : Block) : N :=
  SHA256.pack (SHA256.final_state (encode (json_block b))).

(** ** Codes

    [encode_char] turns one character into one or two bytes; the facts
    below are about such character-by-character codes. *)

(** [is_prefix eqb l1 l2]: [l1] is an initial segment of [l2]. *)
Fixpoint is_prefix {B : Type} (eqb : B -> B -> bool) (l1 l2 : list B) : bool :=
  match l1, l2 with
  | [], _ => true
  | _ :: _, [] => false
  | x :: l1', y :: l2' => eqb x y && is_prefix eqb l1' l2'
  end.

(** The 256 characters. *)
Definition all_ascii : list ascii := map ascii_of_nat (seq 0 256).

(** No code word of [E] is empty or an initial segment of another one. *)
Definition prefix_free {B : Type} (eqb : B -> B -> bool) (E : ascii -> list B) : bool :=
  forallb (fun a1 =>
    match E a1 with [] => false | _ :: _ => true end
    && forallb (fun a2 => implb (is_prefix eqb (E a1) (E a2)) (Ascii.eqb a1 a2)) all_ascii)
    all_ascii.

(** ** Vocabulary for the ledger's history *)

(** The transaction [mine_block] issues to the miner. *)
Definition reward (uuid : string) : Transaction :=
  mkTransaction "0" (remove_dashes uuid) (Int 1).

(** Whether a string holds the character [-]. *)
Fixpoint has_dash (s : string) : bool :=
  match s with
  | EmptyString => false
  | String c s' => Ascii.eqb c "-"%char || has_dash s'
  end.

(** Every transaction the ledger holds: those of the blocks in chain order,
    then the pending ones. *)
Definition all_transactions (self : Blockchain) : list Transaction :=
  (concat (map transactions (chain self)) ++ current_transactions self)%list.

(** The transactions a sequence of calls submits, in order. *)
Fixpoint submitted (ops : list op) : list Transaction :=
  match ops with
  | [] => []
  | SubmitTransaction s r a :: ops' => mkTransaction s r a :: submitted ops'
  | MineBlock _ _ _ :: ops' => submitted ops'
  end.

(** [a] is followed by [b] in the chain. *)
Definition neighbours (chain : list Block) (a b : Block) : Prop :=
  exists i : nat, chain !! i = Some a /\ chain !! S i = Some b.

(** What [mine_block] establishes between the last block [a] and the block
    [b] it appends. *)
Definition mined_after (a b : Block) : Prop :=
  previous_hash b = hash a
  /\ (0 <= proof b)%Z
  /\ valid_proof (proof a) (proof b) (hash a) = true
  /\ (forall q : Z, (0 <= q < proof b)%Z -> valid_proof (proof a) q (hash a) = false)
  /\ exists (txs : list Transaction) (uuid : string),
       transactions b = (txs ++ [reward uuid])%list /\ txs <> [].

(** What holds of the chain of a ledger throughout its life. *)
Definition history_inv (self : Blockchain) : Prop :=
  (exists (g : Block) (rest : list Block),
      chain self = g :: rest
      /\ index g = 1%Z /\ previous_hash g = "1" /\ proof g = 100%Z
      /\ transactions g = [])
  /\ (forall a b : Block, neighbours (chain self) a b -> mined_after a b)
  /\ (forall (i : nat) (b : Block),
        chain self !! i = Some b ->
        current_hash b = Some (hash (set_current_hash None b))).

(** ** Sequences of calls on the ledger with its lists as objects *)
Module StoreOps.

Definition run_op (o : op) (l : Store.Ledger) : Store.Ledger :=
  match o with
  | SubmitTransaction s r a => snd (Store.new_transaction s r a l)
  | MineBlock fuel uuid now => snd (Store.mine_block fuel uuid now l)
  end.

Definition run_ops (ops : list op) (l : Store.Ledger) : Store.Ledger :=
  fold_left (fun l o => run_op o l) ops l.

Definition fresh (now : PyFloat) : Store.Ledger := snd (Store.init now).

End StoreOps.

(** ** The console program

    The functions of the ["User Interaction Section"] and the main block.
    A run reads its input line by line from [stdin] and writes to [stdout];
    [input(prompt)] writes the prompt and raises [EOFError] when no line is
    left.  What the run takes from outside is gathered in [Env]: the fuel of
    each search, the readings of [time()] and of [str(uuid4())], numbered by
    the block they go into (each block takes exactly one of each, the
    genesis block no uuid), and [float] applied to the text of an amount,
    [None] when [float] raises [ValueError]. *)
Module Cli.

Record Env := mkEnv {
  fuel : nat;
  time_at : nat -> PyFloat;
  uuid_at : nat -> string;
  to_float : string -> option PyFloat
}.

Record World := mkWorld {
  stdin : list string;
  stdout : string;
  ledger : Blockchain
}.

(** Why a run stops short of a normal return: an exception that nothing
    catches, a search that exhausts its fuel, or a loop that exhausts its
    turns. *)
Inductive signal :=
| EOFError
| ValueError
| Uncaught (e : exn)
| Stalled
| Unfinished.

Inductive result (A : Type) :=
| Ok (a : A)
| Stop (s : signal).

Arguments Ok {A} a.
Arguments Stop {A} s.

Definition C (A : Type) : Type := World -> result A * World.

Definition creturn {A} (a : A) : C A := fun w => (Ok a, w).

Definition cbind {A B} (m : C A) (k : A -> C B) : C B :=
  fun w =>
    match m w with
    | (Ok a, w') => k a w'
    | (Stop s, w') => (Stop s, w')
    end.

Definition newline : string := String (ascii_of_nat 10) EmptyString.

(** [print(s)] *)
Definition print (s : string) : C unit :=
  fun w => (Ok tt, mkWorld (stdin w) (stdout w ++ s ++ newline) (ledger w)).

(** [input(prompt)] *)
Definition input (prompt : string) : C string :=
  fun w =>
    let w' := mkWorld (stdin w) (stdout w ++ prompt) (ledger w) in
    match stdin w with
    | [] => (Stop EOFError, w')
    | line :: rest => (Ok line, mkWorld rest (stdout w') (ledger w))
    end.

(** A method call on the ledger. *)
Definition call {A} (m : M A) : C A :=
  fun w =>
    match m (ledger w) with
    | (Returns a, self) => (Ok a, mkWorld (stdin w) (stdout w) self)
    | (Raises e, self) => (Stop (Uncaught e), mkWorld (stdin w) (stdout w) self)
    | (OutOfFuel, self) => (Stop Stalled, mkWorld (stdin w) (stdout w) self)
    end.

(** [print_menu()] *)
Definition print_menu : C unit :=
  cbind (print (newline ++ "Blockchain Menu:")) (fun _ =>
  cbind (print "1. Mine a new block") (fun _ =>
  cbind (print "2. Add a new transaction") (fun _ =>
  cbind (print "3. Display the blockchain") (fun _ =>
  print "4. Exit")))).

(** [mine_block(blockchain)]: the method above, with its line printed. *)
Definition mine_block (env : Env) : C unit :=
  fun w =>
    let n := length (chain (ledger w)) in
    cbind (call (mine_block (fuel env) (uuid_at env n) (time_at env n))) print w.

(** [add_transaction(blockchain)] *)
Definition add_transaction (env : Env) : C unit :=
  cbind (input "Enter the sender: ") (fun sender =>
  cbind (input "Enter the recipient: ") (fun recipient =>
  cbind (input "Enter the amount: ") (fun amount =>
  match to_float env amount with
  | None => fun w => (Stop ValueError, w)
  | Some f =>
      cbind (call (new_transaction sender recipient (Float f))) (fun index =>
      print ("Transaction will be added to block " ++ str_of_int index))
  end))).

(** [json.dumps(_, indent=4)]: keys in insertion order, one item per line,
    four spaces for each level. *)
Fixpoint spaces (n : nat) : string :=
  match n with
  | O => EmptyString
  | S n' => String " " (spaces n')
  end.

Definition break_line (level : nat) : string := newline ++ spaces (4 * level).

Fixpoint lines (level : nat) (xs : list string) : string :=
  match xs with
  | [] => EmptyString
  | [x] => x
  | x :: xs' => x ++ "," ++ break_line level ++ lines level xs'
  end.

Definition pretty (opening closing : string) (level : nat) (xs : list string) : string :=
  match xs with
  | [] => opening ++ closing
  | _ :: _ =>
      opening ++ break_line (S level) ++ lines (S level) xs ++ break_line level ++ closing
  end.

Definition pretty_transaction (level : nat) (t : Transaction) : string :=
  pretty "{" "}" level
    [ Json.key "sender" ++ Json.str (sender t);
      Json.key "recipient" ++ Json.str (recipient t);
      Json.key "amount" ++ Json.number (amount t) ].

Definition pretty_block (b : Block) : string :=
  pretty "{" "}" 0
    [ Json.key "index" ++ str_of_int (index b);
      Json.key "timestamp" ++ Json.float (timestamp b);
      Json.key "transactions"
        ++ pretty "[" "]" 1 (map (pretty_transaction 2) (transactions b));
      Json.key "proof" ++ str_of_int (proof b);
      Json.key "previous_hash" ++ Json.str (previous_hash b);
      Json.key "current_hash" ++ Json.optional_str (current_hash b) ].

(** [display_chain(blockchain)] *)
Fixpoint print_blocks (blocks : list Block) : C unit :=
  match blocks with
  | [] => creturn tt
  | block :: rest => cbind (print (pretty_block block)) (fun _ => print_blocks rest)
  end.

Definition display_chain : C unit :=
  fun w => print_blocks (chain (ledger w)) w.

(** The [while True] loop of the main block.  Every turn reads a line, so
    the turns of a run are at most the lines of its input plus one. *)
Fixpoint main_loop (env : Env) (turns : nat) : C unit :=
  match turns with
  | O => fun w => (Stop Unfinished, w)
  | S turns' =>
      cbind print_menu (fun _ =>
      cbind (input "Enter your choice: ") (fun choice =>
      if String.eqb choice "1" then
        cbind (mine_block env) (fun _ => main_loop env turns')
      else if String.eqb choice "2" then
        cbind (add_transaction env) (fun _ => main_loop env turns')
      else if String.eqb choice "3" then
        cbind display_chain (fun _ => main_loop env turns')
      else if String.eqb choice "4" then
        print "Exiting..."
      else
        cbind (print "Invalid choice! Please choose a valid option.") (fun _ =>
        main_loop env turns')))
  end.

(** The main block: [Blockchain()], then the loop. *)
Definition main (env : Env) (lines : list string) : result unit * World :=
  cbind (call (fun self => init (time_at env 0%nat)))
        (fun _ => main_loop env (S (length lines)))
        (mkWorld lines EmptyString empty_ledger).

End Cli.

(** An environment for the examples: the clock of the concrete session, one
    uuid, and [float] known on the text ["1"] only. *)
Definition console_env : Cli.Env :=
  Cli.mkEnv 64 (fun n => if (n =? 0)%nat then t0 else t1) (fun _ => uuid0)
            (fun s => if String.eqb s "1" then Some (mkFloat "1.0") else None).

(** What is said of a run of the console program. *)
Module CliSpec.

(** The run ended by [break], by an [EOFError] or [ValueError] of the
    console functions, or in a search out of fuel. *)
Definition quiet {A : Type} (r : Cli.result A) : Prop :=
  match r with
  | Cli.Ok _ => True
  | Cli.Stop Cli.EOFError => True
  | Cli.Stop Cli.ValueError => True
  | Cli.Stop Cli.Stalled => True
  | Cli.Stop (Cli.Uncaught _) => False
  | Cli.Stop Cli.Unfinished => False
  end.

(** The ledger of the world is one that calls of the interface build from
    the ledger constructed at the first reading of the clock. *)
Definition reach (env : Cli.Env) (w : Cli.World) : Prop :=
  exists ops : list op, Cli.ledger w = run_ops ops (fresh (Cli.time_at env 0%nat)).

(** A step from [w] that ends quietly, in a world within reach, without
    having put back any input. *)
Definition advances {A : Type} (env : Cli.Env) (w : Cli.World)
    (x : Cli.result A * Cli.World) : Prop :=
  quiet (fst x)
  /\ reach env (snd x)
  /\ (length (Cli.stdin (snd x)) <= length (Cli.stdin w))%nat.

End CliSpec.

(** A lowercase hexadecimal digit. *)
Definition is_hex (c : ascii) : bool :=
  let n := N_of_ascii c in
  ((48 <=? n) && (n <=? 57) || (97 <=? n) && (n <=? 102))%N.

(** What is checked of each byte value in the proofs about [hexdigest]. *)
Definition hex_byte_ok (a : ascii) : bool :=
  let b := N_of_ascii a in
  Bool.eqb (String.eqb (SHA256.hex_byte b) "00") (b =? 0)%N
  && forallb is_hex (list_ascii_of_string (SHA256.hex_byte b))
  && (String.length (SHA256.hex_byte b) =? 2)%nat.

(** [changed b b']: [b'] is [b] with another integer as [index] or as
    [proof]. *)
Inductive changed (b : Block) : Block -> Prop :=
| changed_index (i : Z) : i <> index b -> changed b (set_index i b)
| changed_proof (p : Z) : p <> proof b -> changed b (set_proof p b).

(** ** Decimal digits *)

(** The digit of a number from 0 to 9. *)
Definition digit_of (d : Z) : DecimalFacts.digits :=
  match d with
  | 1 => DecimalFacts.d1 | 2 => DecimalFacts.d2 | 3 => DecimalFacts.d3
  | 4 => DecimalFacts.d4 | 5 => DecimalFacts.d5 | 6 => DecimalFacts.d6
  | 7 => DecimalFacts.d7 | 8 => DecimalFacts.d8 | 9 => DecimalFacts.d9
  | _ => DecimalFacts.d0
  end%Z.

(** The number a digit stands for. *)
Definition digit_value (dg : DecimalFacts.digits) : N :=
  match dg with
  | DecimalFacts.d0 => 0 | DecimalFacts.d1 => 1 | DecimalFacts.d2 => 2
  | DecimalFacts.d3 => 3 | DecimalFacts.d4 => 4 | DecimalFacts.d5 => 5
  | DecimalFacts.d6 => 6 | DecimalFacts.d7 => 7 | DecimalFacts.d8 => 8
  | DecimalFacts.d9 => 9
  end%N.

(** ** Texts beyond code point 255

    A Python [str] is a sequence of code points up to [0x10FFFF], the
    surrogates [0xD800 .. 0xDFFF] included: [chr(0xD83D) + chr(0xDE00)] is a
    [str] of length two, different from [chr(0x1F600)].  This module repeats
    the hasher and the validator on blocks whose transactions name their
    [sender] and [recipient] by such texts.  The two hash fields stay texts
    of the model above, so [valid_proof] is the function defined there. *)

Module Unicode.

(** A [str], one code point per element. *)
Definition str : Type := list N.

Definition of_string (s : string) : str :=
  map N_of_ascii (list_ascii_of_string s).

(** One code point under [ensure_ascii=True]
    ([py_encode_basestring_ascii]): below [0x10000] it is escaped as in
    [Json.escape_char], at or above it is written as a surrogate pair. *)
Definition escape_code_point (n : N) : string :=
  if (n <? 256)%N then Json.escape_char (ascii_of_N n)
  else if (n <? 0x10000)%N then String Json.backslash ("u" ++ Json.hex4 n)
  else
    let n := (n - 0x10000)%N in
    let s1 := N.lor 0xd800 (N.land (N.shiftr n 10) 0x3ff) in
    let s2 := N.lor 0xdc00 (N.land n 0x3ff) in
    String Json.backslash ("u" ++ Json.hex4 s1)
    ++ String Json.backslash ("u" ++ Json.hex4 s2).

Fixpoint escape (s : str) : string :=
  match s with
  | [] => EmptyString
  | n :: s' => escape_code_point n ++ escape s'
  end.

Definition json_str (s : str) : string :=
  String Json.dquote (escape s ++ String Json.dquote EmptyString).

(** The dictionary built by [new_transaction]. *)
Record Transaction := mkTransaction {
  sender : str;
  recipient : str;
  amount : Number
}.

(** The dictionary built by [new_block]. *)
Record Block := mkBlock {
  index : Z;
  timestamp : PyFloat;
  transactions : list Transaction;
  proof : Z;
  previous_hash : string;
  current_hash : option string
}.

Definition set_current_hash (h : option string) (b : Block) : Block :=
  mkBlock (index b) (timestamp b) (transactions b) (proof b) (previous_hash b) h.

Definition set_transactions (txs : list Transaction) (b : Block) : Block :=
  mkBlock (index b) (timestamp b) txs (proof b) (previous_hash b) (current_hash b).

Definition json_transaction (t : Transaction) : string :=
  Json.object
    [ Json.key "amount" ++ Json.number (amount t);
      Json.key "recipient" ++ json_str (recipient t);
      Json.key "sender" ++ json_str (sender t) ].

Definition json_block (b : Block) : string :=
  Json.object
    [ Json.key "current_hash" ++ Json.optional_str (current_hash b);
      Json.key "index" ++ str_of_int (index b);
      Json.key "previous_hash" ++ Json.str (previous_hash b);
      Json.key "proof" ++ str_of_int (proof b);
      Json.key "timestamp" ++ Json.float (timestamp b);
      Json.key "transactions" ++ Json.array (map json_transaction (transactions b)) ].

(** [Blockchain.hash]: the text [json.dumps] writes is ASCII, whatever the
    code points of the block. *)
Definition hash (block : Block) : string := sha256_hex (json_block block).

(** The loop of [valid_chain]. *)
Fixpoint valid_chain_loop (fuel : nat) (chain : list Block) (last_block : Block)
    (current_index : nat) : outcome bool :=
  match fuel with
  | O => OutOfFuel
  | S fuel' =>
      if (current_index <? length chain)%nat then
        match chain !! current_index with
        | None => Raises IndexError
        | Some block =>
            if negb (String.eqb (previous_hash block) (hash last_block))
            then Returns false
            else if negb (valid_proof (proof last_block) (proof block)
                                      (str_of_optional (current_hash last_block)))
            then Returns false
            else valid_chain_loop fuel' chain block (S current_index)
        end
      else Returns true
  end.

(** [Blockchain.valid_chain] *)
Definition valid_chain (chain : list Block) : outcome bool :=
  match chain !! 0%nat with
  | None => Raises IndexError
  | Some last_block => valid_chain_loop (length chain) chain last_block 1
  end.

(** The block [new_block] stores. *)
Definition stored_block (idx : Z) (now : PyFloat) (txs : list Transaction)
    (proof : Z) (prev : string) : Block :=
  let block := mkBlock idx now txs proof prev None in
  set_current_hash (Some (hash block)) block.

(** [chr(0x1F600)], and the text made of its two surrogates,
    [chr(0xD83D) + chr(0xDE00)]. *)
Definition grin : str := [0x1F600%N].
Definition grin_pair : str := [0xD83D%N; 0xDE00%N].

(** A transaction of one unit to [addrA]. *)
Definition payment (who : str) : Transaction :=
  mkTransaction who (of_string "addrA") (Int 1).

(** A chain of two blocks as [new_block] stores them.  The first holds a
    payment sent by [grin]; the second is linked to it and carries the least
    proof for the validator's seeds, the proof and the stored [current_hash]
    of the first. *)
Definition paid_block : Block :=
  stored_block 1 t0 [payment grin] 100 "1".

Definition paid_chain : list Block :=
  [ paid_block;
    stored_block 2 t1 [payment (of_string "0")] 233 (hash paid_block) ].

End Unicode.

(** A block of the model above as a block of [Unicode]. *)
Definition widen_transaction (t : Transaction) : Unicode.Transaction :=
  Unicode.mkTransaction (Unicode.of_string (sender t))
                        (Unicode.of_string (recipient t)) (amount t).

Definition widen (b : Block) : Unicode.Block :=
  Unicode.mkBlock (index b) (timestamp b) (map widen_transaction (transactions b))
                  (proof b) (previous_hash b) (current_hash b).

Arguments sha256_hex : simpl never.
Arguments hash : simpl never.
Arguments valid_proof : simpl never.
Arguments str_of_int : simpl never.

(** * Properties *)

(** ** The methods in closed form *)

Lemma last_block_some (self : Blockchain) (b : Block) :
  last (chain self) = Some b -> last_block self = (Returns b, self).
Proof. intros H. unfold last_block, bind, get. rewrite H. reflexivity. Qed.

Lemma last_block_empty (self : Blockchain) :
  chain self = [] -> last_block self = (Raises IndexError, self).
Proof. intros H. unfold last_block, bind, get. rewrite H. reflexivity. Qed.

Lemma last_is_Some (A : Type) (l : list A) : l <> [] -> exists x, last l = Some x.
Proof.
  intros H. destruct (last l) as [x|] eqn:E; [eauto|].
  apply last_None in E. contradiction.
Qed.

Lemma new_block_given (now : PyFloat) (p : Z) (ph : option string) (self : Blockchain) :
  truthy ph = true ->
  let block := stored_block (Z.of_nat (length (chain self)) + 1) now
                            (current_transactions self) p (str_of_optional ph) in
  new_block now p ph self = (Returns block, mkBlockchain [] (chain self ++ [block])).
Proof. intros H. unfold new_block, bind, get, put, ret. rewrite H. reflexivity. Qed.

Lemma new_block_linked (now : PyFloat) (p : Z) (ph : option string)
    (self : Blockchain) (b : Block) :
  truthy ph = false ->
  last (chain self) = Some b ->
  let block := stored_block (Z.of_nat (length (chain self)) + 1) now
                            (current_transactions self) p (hash b) in
  new_block now p ph self = (Returns block, mkBlockchain [] (chain self ++ [block])).
Proof.
  intros H Hl. unfold new_block, bind, get, put, ret. rewrite H.
  rewrite (last_block_some self b Hl). reflexivity.
Qed.

Lemma new_block_unlinked (now : PyFloat) (p : Z) (ph : option string) (self : Blockchain) :
  truthy ph = false ->
  chain self = [] ->
  new_block now p ph self = (Raises IndexError, self).
Proof.
  intros H Hl. unfold new_block, bind, get, put, ret. rewrite H.
  rewrite (last_block_empty self Hl). reflexivity.
Qed.

Lemma new_transaction_some (s r : string) (a : Number) (self : Blockchain) (b : Block) :
  last (chain self) = Some b ->
  new_transaction s r a self =
    (Returns (index b + 1)%Z,
     mkBlockchain (current_transactions self ++ [mkTransaction s r a]) (chain self)).
Proof.
  intros H. unfold new_transaction, bind, get, put, ret.
  rewrite (last_block_some _ b) by exact H. reflexivity.
Qed.

Lemma new_transaction_empty (s r : string) (a : Number) (self : Blockchain) :
  chain self = [] ->
  new_transaction s r a self =
    (Raises IndexError,
     mkBlockchain (current_transactions self ++ [mkTransaction s r a]) (chain self)).
Proof.
  intros H. unfold new_transaction, bind, get, put, ret.
  rewrite last_block_empty by exact H. reflexivity.
Qed.

Lemma mine_block_nothing (fuel : nat) (uuid : string) (now : PyFloat) (self : Blockchain) :
  current_transactions self = [] ->
  mine_block fuel uuid now self = (Returns no_transactions, self).
Proof. intros H. unfold mine_block, bind, get. rewrite H. reflexivity. Qed.

Lemma mine_block_forged (fuel : nat) (uuid : string) (now : PyFloat)
    (self : Blockchain) (b : Block) (p : Z) :
  current_transactions self <> [] ->
  last (chain self) = Some b ->
  proof_of_work fuel b = Returns p ->
  let reward := mkTransaction "0" (remove_dashes uuid) (Int 1) in
  let block := stored_block (Z.of_nat (length (chain self)) + 1) now
                            (current_transactions self ++ [reward]) p (hash b) in
  mine_block fuel uuid now self =
    (Returns (block_mined block), mkBlockchain [] (chain self ++ [block])).
Proof.
  intros Hne Hl Hp. unfold mine_block.
  unfold bind at 1. unfold get at 1.
  destruct (current_transactions self) as [|t ts] eqn:E; [congruence|].
  unfold bind at 1. rewrite (last_block_some self b Hl).
  unfold bind at 1. unfold lift. rewrite Hp.
  unfold bind at 1. rewrite (new_transaction_some _ _ _ self b Hl).
  unfold bind at 1.
  rewrite (new_block_linked now p None _ b) by (reflexivity || exact Hl).
  cbn [chain current_transactions]. rewrite E. reflexivity.
Qed.

Lemma mine_block_stalled (fuel : nat) (uuid : string) (now : PyFloat)
    (self : Blockchain) (b : Block) :
  current_transactions self <> [] ->
  last (chain self) = Some b ->
  proof_of_work fuel b = OutOfFuel ->
  mine_block fuel uuid now self = (OutOfFuel, self).
Proof.
  intros Hne Hl Hp. unfold mine_block.
  unfold bind at 1. unfold get at 1.
  destruct (current_transactions self) as [|t ts] eqn:E; [congruence|].
  unfold bind at 1. rewrite (last_block_some self b Hl).
  unfold bind at 1. unfold lift. rewrite Hp. reflexivity.
Qed.

Lemma mine_block_no_chain (fuel : nat) (uuid : string) (now : PyFloat) (self : Blockchain) :
  current_transactions self <> [] ->
  chain self = [] ->
  mine_block fuel uuid now self = (Raises IndexError, self).
Proof.
  intros Hne Hl. unfold mine_block.
  unfold bind at 1. unfold get at 1.
  destruct (current_transactions self) as [|t ts] eqn:E; [congruence|].
  unfold bind at 1. rewrite (last_block_empty self Hl). reflexivity.
Qed.

Lemma mine_block_steps (fuel : nat) (uuid : string) (now : PyFloat)
    (self : Blockchain) (b : Block) (p : Z) :
  current_transactions self <> [] ->
  last (chain self) = Some b ->
  proof_of_work fuel b = Returns p ->
  mine_block fuel uuid now self =
    match new_block now p None
            (snd (new_transaction "0" (remove_dashes uuid) (Int 1) self)) with
    | (Returns block, self') => (Returns (block_mined block), self')
    | (Raises e, self') => (Raises e, self')
    | (OutOfFuel, self') => (OutOfFuel, self')
    end.
Proof.
  intros Hne Hl Hp.
  rewrite (mine_block_forged fuel uuid now self b p Hne Hl Hp).
  rewrite (new_transaction_some _ _ _ self b Hl). cbn [snd].
  rewrite (new_block_linked now p None _ b) by (reflexivity || exact Hl).
  reflexivity.
Qed.

(** ** Proof of work *)

Section ProofOfWork.

Variables (last_proof : Z) (last_hash : string).

Local Open Scope Z_scope.

(** What the loop returns is valid, is not below the candidate it was
    entered with, and every candidate it passed over is invalid. *)
Lemma proof_of_work_loop_returns (fuel : nat) (start p : Z) :
  proof_of_work_loop fuel last_proof last_hash start = Returns p ->
  valid_proof last_proof p last_hash = true
  /\ start <= p
  /\ forall q, start <= q < p -> valid_proof last_proof q last_hash = false.
Proof.
  revert start. induction fuel as [|fuel IH]; intros start H; [discriminate|].
  cbn [proof_of_work_loop] in H.
  destruct (valid_proof last_proof start last_hash) eqn:E; cbn [negb] in H.
  - injection H as <-. repeat split; [exact E | lia | intros q Hq; lia].
  - destruct (IH _ H) as (Hv & Hle & Hmin). repeat split; [exact Hv | lia |].
    intros q Hq. destruct (Z.eq_dec q start) as [->|Hne]; [exact E|].
    apply Hmin. lia.
Qed.

Lemma proof_of_work_loop_never_raises (fuel : nat) (start : Z) (e : exn) :
  proof_of_work_loop fuel last_proof last_hash start <> Raises e.
Proof.
  revert start. induction fuel as [|fuel IH]; intros start; [discriminate|].
  cbn [proof_of_work_loop].
  destruct (valid_proof last_proof start last_hash); cbn [negb]; [discriminate|apply IH].
Qed.

(** If some candidate at or above the entry point is valid, fuel beyond the
    distance to it makes the loop return. *)
Lemma proof_of_work_loop_finds (fuel : nat) (start n : Z) :
  start <= n ->
  valid_proof last_proof n last_hash = true ->
  (Z.to_nat (n - start) < fuel)%nat ->
  exists p, proof_of_work_loop fuel last_proof last_hash start = Returns p /\ p <= n.
Proof.
  revert start. induction fuel as [|fuel IH]; intros start Hle Hv Hf; [lia|].
  cbn [proof_of_work_loop].
  destruct (valid_proof last_proof start last_hash) eqn:E; cbn [negb].
  - exists start. split; [reflexivity | lia].
  - assert (start <> n) by congruence.
    destruct (IH (start + 1)) as (p & Hp & Hpn); [lia | exact Hv | lia |].
    exists p. split; [exact Hp | lia].
Qed.

(** More fuel does not change a result. *)
Lemma proof_of_work_loop_more_fuel (fuel fuel' : nat) (start p : Z) :
  proof_of_work_loop fuel last_proof last_hash start = Returns p ->
  (fuel <= fuel')%nat ->
  proof_of_work_loop fuel' last_proof last_hash start = Returns p.
Proof.
  revert fuel' start. induction fuel as [|fuel IH]; intros fuel' start H Hf; [discriminate|].
  destruct fuel' as [|fuel']; [lia|].
  cbn [proof_of_work_loop] in *.
  destruct (valid_proof last_proof start last_hash); cbn [negb] in *; [exact H|].
  apply IH; [exact H | lia].
Qed.

(** C3: the result of the search passes the verification: whenever the
    search of [proof_of_work], run on the seeds [last_proof] and [last_hash],
    returns a proof, [valid_proof] holds of it with the same seeds; and the
    search does return, with fuel beyond [n], as soon as some candidate
    [n >= 0] is valid. *)
Theorem search_result_verifies :
  (forall (fuel : nat) (p : Z),
      search fuel last_proof last_hash = Returns p ->
      valid_proof last_proof p last_hash = true)
  /\ (forall n : Z,
        0 <= n ->
        valid_proof last_proof n last_hash = true ->
        exists p, search (S (Z.to_nat n)) last_proof last_hash = Returns p
                  /\ valid_proof last_proof p last_hash = true).
Proof.
  split.
  - intros fuel p H. apply (proof_of_work_loop_returns fuel 0 p H).
  - intros n Hn Hv.
    destruct (proof_of_work_loop_finds (S (Z.to_nat n)) 0 n) as (p & Hp & _);
      [lia | exact Hv | lia |].
    exists p. split; [exact Hp|].
    apply (proof_of_work_loop_returns _ 0 p Hp).
Qed.

(** C4: the search returns the smallest non-negative valid candidate: a
    returned proof is non-negative and valid, and no non-negative integer
    strictly below it is valid; and when some candidate [n >= 0] is valid the
    search, with fuel beyond [n], returns a proof that is at most [n]. *)
Theorem search_result_least :
  (forall (fuel : nat) (p : Z),
      search fuel last_proof last_hash = Returns p ->
      0 <= p
      /\ valid_proof last_proof p last_hash = true
      /\ forall q, 0 <= q < p -> valid_proof last_proof q last_hash = false)
  /\ (forall n : Z,
        0 <= n ->
        valid_proof last_proof n last_hash = true ->
        exists p, search (S (Z.to_nat n)) last_proof last_hash = Returns p /\ p <= n).
Proof.
  split.
  - intros fuel p H.
    destruct (proof_of_work_loop_returns fuel 0 p H) as (Hv & Hle & Hmin).
    repeat split; assumption.
  - intros n Hn Hv.
    apply (proof_of_work_loop_finds (S (Z.to_nat n)) 0 n); [lia | exact Hv | lia].
Qed.

End ProofOfWork.

Lemma proof_of_work_cases (fuel : nat) (b : Block) :
  (exists p, proof_of_work fuel b = Returns p) \/ proof_of_work fuel b = OutOfFuel.
Proof.
  unfold proof_of_work, search.
  destruct (proof_of_work_loop fuel (proof b) (hash b) 0) as [p|e|] eqn:E; eauto.
  exfalso. exact (proof_of_work_loop_never_raises _ _ _ _ _ E).
Qed.

(** ** The validator *)

(** With fuel for the blocks that remain, the loop computes the checks along
    the rest of the chain. *)
Lemma valid_chain_loop_links (done rest : list Block) (last_block : Block) (fuel : nat) :
  (length rest < fuel)%nat ->
  valid_chain_loop fuel (done ++ rest) last_block (length done)
  = Returns (valid_links last_block rest).
Proof.
  revert done last_block fuel.
  induction rest as [|block rest IH]; intros done last_block fuel Hf.
  - destruct fuel as [|fuel]; [cbn in Hf; lia|].
    cbn [valid_chain_loop valid_links]. rewrite app_nil_r.
    rewrite Nat.ltb_irrefl. reflexivity.
  - destruct fuel as [|fuel]; [cbn in Hf; lia|].
    cbn [valid_chain_loop valid_links].
    assert (Hlt : (length done <? length (done ++ block :: rest))%nat = true).
    { apply Nat.ltb_lt. rewrite length_app. cbn. lia. }
    rewrite Hlt.
    rewrite lookup_app_r by lia. rewrite Nat.sub_diag. cbn [lookup list_lookup].
    unfold valid_link.
    destruct (String.eqb (previous_hash block) (hash last_block)); cbn [negb andb];
      [|reflexivity].
    destruct (valid_proof _ _ _); cbn [negb andb]; [|reflexivity].
    replace (done ++ block :: rest)%list with ((done ++ [block]) ++ rest)%list
      by (rewrite <- app_assoc; reflexivity).
    replace (S (length done)) with (length (done ++ [block])%list)
      by (rewrite length_app; cbn; lia).
    apply IH. cbn in Hf. lia.
Qed.

(** [valid_chain] on a chain with a first block. *)
Lemma valid_chain_cons (b0 : Block) (rest : list Block) :
  valid_chain (b0 :: rest) = Returns (valid_links b0 rest).
Proof.
  unfold valid_chain. cbn [lookup list_lookup].
  apply (valid_chain_loop_links [b0] rest b0). cbn. lia.
Qed.

Lemma valid_chain_nil : valid_chain [] = Raises IndexError.
Proof. reflexivity. Qed.

(** C5 as amended: a chain of exactly one block is valid; on the empty
    chain [valid_chain] raises [IndexError] at [chain[0]]. *)
Theorem valid_chain_short (chain : list Block) :
  (length chain < 2)%nat ->
  valid_chain chain = match chain with
                      | [] => Raises IndexError
                      | _ :: _ => Returns true
                      end.
Proof.
  intros H. destruct chain as [|b0 [|b1 rest]].
  - reflexivity.
  - apply valid_chain_cons.
  - cbn in H. lia.
Qed.

(** C5 fails on the empty chain: the validator does not return [True]. *)
Lemma valid_chain_empty_not_true :
  (length (@nil Block) < 2)%nat /\ valid_chain [] <> Returns true.
Proof. split; [cbn; lia | discriminate]. Qed.

(** ** The ledger *)

Lemma init_closed_form (now : PyFloat) :
  init now = (Returns (stored_block 1 now [] 100 "1"),
              mkBlockchain [] [stored_block 1 now [] 100 "1"]).
Proof. unfold init. rewrite new_block_given by reflexivity. reflexivity. Qed.

(** C7: a freshly constructed ledger holds exactly the genesis block, with
    index 1, previous hash ["1"], proof 100 and no transactions, and its
    pending buffer is empty. *)
Theorem init_genesis (now : PyFloat) :
  exists genesis : Block,
    init now = (Returns genesis, mkBlockchain [] [genesis])
    /\ index genesis = 1%Z
    /\ previous_hash genesis = "1"
    /\ proof genesis = 100%Z
    /\ transactions genesis = []
    /\ current_transactions (fresh now) = []
    /\ chain (fresh now) = [genesis].
Proof.
  exists (stored_block 1 now [] 100 "1").
  unfold fresh. rewrite (init_closed_form now). repeat split.
Qed.

(** C8: on a ledger whose chain is not empty, [new_transaction] appends
    exactly the given transaction to the pending buffer, leaves the chain as
    it is, and returns the index of the last block plus one. *)
Theorem new_transaction_frame (s r : string) (a : Number) (self : Blockchain) :
  chain self <> [] ->
  exists b : Block,
    last (chain self) = Some b
    /\ fst (new_transaction s r a self) = Returns (index b + 1)%Z
    /\ current_transactions (snd (new_transaction s r a self))
       = (current_transactions self ++ [mkTransaction s r a])%list
    /\ chain (snd (new_transaction s r a self)) = chain self.
Proof.
  intros Hne. destruct (last_is_Some _ _ Hne) as [b Hb]. exists b.
  rewrite (new_transaction_some s r a self b Hb). repeat split. exact Hb.
Qed.

(** C6: with an empty pending buffer, [mine_block] prints the rejection line
    and returns before touching the ledger: no block is appended and nothing
    is modified. *)
Theorem mine_block_rejected (fuel : nat) (uuid : string) (now : PyFloat)
    (self : Blockchain) :
  current_transactions self = [] ->
  fst (mine_block fuel uuid now self) = Returns no_transactions
  /\ snd (mine_block fuel uuid now self) = self
  /\ chain (snd (mine_block fuel uuid now self)) = chain self.
Proof.
  intros H. rewrite (mine_block_nothing fuel uuid now self H). repeat split.
Qed.

(** ** The chain invariant *)

Lemma contiguous_snoc (chain : list Block) (block : Block) :
  contiguous chain ->
  index block = (Z.of_nat (length chain) + 1)%Z ->
  contiguous (chain ++ [block]).
Proof.
  intros Hc Hi k b Hk.
  destruct (Nat.lt_ge_cases k (length chain)) as [Hlt|Hge].
  - rewrite lookup_app_l in Hk by exact Hlt. apply Hc. exact Hk.
  - rewrite lookup_app_r in Hk by exact Hge.
    destruct (k - length chain)%nat as [|m] eqn:E; cbn in Hk; [|discriminate].
    injection Hk as <-. rewrite Hi. f_equal. lia.
Qed.

Lemma snoc_not_nil (A : Type) (l : list A) (x : A) : (l ++ [x])%list <> [].
Proof. destruct l; discriminate. Qed.

Lemma ledger_inv_fresh (now : PyFloat) : ledger_inv (fresh now).
Proof.
  unfold ledger_inv, fresh. rewrite (init_closed_form now). cbn [snd chain].
  split; [discriminate|].
  intros [|k] b Hk; cbn in Hk; [|discriminate].
  injection Hk as <-. reflexivity.
Qed.

Lemma new_transaction_inv (s r : string) (a : Number) (self : Blockchain) :
  ledger_inv self -> ledger_inv (snd (new_transaction s r a self)).
Proof.
  intros [Hne Hc]. destruct (last_is_Some _ _ Hne) as [b Hb].
  rewrite (new_transaction_some s r a self b Hb). split; assumption.
Qed.

Lemma mine_block_inv (fuel : nat) (uuid : string) (now : PyFloat) (self : Blockchain) :
  ledger_inv self -> ledger_inv (snd (mine_block fuel uuid now self)).
Proof.
  intros [Hne Hc]. destruct (last_is_Some _ _ Hne) as [b Hb].
  destruct (current_transactions self) as [|t ts] eqn:E.
  - rewrite mine_block_nothing by exact E. split; assumption.
  - assert (Hp : current_transactions self <> []) by congruence.
    destruct (proof_of_work_cases fuel b) as [[p Hpow]|Hpow].
    + rewrite (mine_block_forged fuel uuid now self b p Hp Hb Hpow).
      split; cbn [snd chain].
      * apply snoc_not_nil.
      * apply contiguous_snoc; [exact Hc | reflexivity].
    + rewrite (mine_block_stalled fuel uuid now self b Hp Hb Hpow).
      split; assumption.
Qed.

Lemma run_op_snd (o : op) (self : Blockchain) :
  snd (run_op o self) =
    match o with
    | SubmitTransaction s r a => snd (new_transaction s r a self)
    | MineBlock fuel uuid now => snd (mine_block fuel uuid now self)
    end.
Proof.
  destruct o as [s r a|fuel uuid now]; unfold run_op, bind, ret.
  - destruct (new_transaction s r a self) as [[z|e|] self']; reflexivity.
  - destruct (mine_block fuel uuid now self) as [[z|e|] self']; reflexivity.
Qed.

Lemma run_op_inv (o : op) (self : Blockchain) :
  ledger_inv self -> ledger_inv (snd (run_op o self)).
Proof.
  intros H. rewrite run_op_snd.
  destruct o; [apply new_transaction_inv | apply mine_block_inv]; exact H.
Qed.

Lemma run_ops_inv (ops : list op) (self : Blockchain) :
  ledger_inv self -> ledger_inv (run_ops ops self).
Proof.
  revert self. induction ops as [|o ops IH]; intros self H; [exact H|].
  cbn [run_ops fold_left]. apply IH. apply run_op_inv. exact H.
Qed.

(** C10: after construction and after any sequence of [new_transaction] and
    [mine_block] calls, the chain is not empty, the block at position [k] has
    index [k + 1], and [last_block] returns. *)
Theorem chain_indices_contiguous (now : PyFloat) (ops : list op) :
  let self := run_ops ops (fresh now) in
  chain self <> []
  /\ (forall (k : nat) (b : Block), chain self !! k = Some b -> index b = (Z.of_nat k + 1)%Z)
  /\ exists b : Block, last_block self = (Returns b, self).
Proof.
  intros self.
  destruct (run_ops_inv ops (fresh now) (ledger_inv_fresh now)) as [Hne Hc].
  fold self in Hne, Hc. repeat split; [exact Hne | exact Hc |].
  destruct (last_is_Some _ _ Hne) as [b Hb]. exists b.
  apply last_block_some. exact Hb.
Qed.

(** ** What a mined block is checked against *)

(** The link from the last block to the block [mine_block] appends: the
    hash comparison passes, and the proof, found by the search for the seed
    [hash b], is checked against the seed [current_hash b]. *)
Lemma mined_block_link (b : Block) (idx : Z) (now : PyFloat)
    (txs : list Transaction) (p : Z) :
  valid_link b (stored_block idx now txs p (hash b))
  = valid_proof (proof b) p (str_of_optional (current_hash b)).
Proof.
  unfold valid_link, stored_block.
  cbn [previous_hash proof set_current_hash].
  rewrite String.eqb_refl. reflexivity.
Qed.

Lemma valid_links_cons (x y : Block) (l : list Block) :
  valid_links x (y :: l) = valid_link x y && links (y :: l).
Proof. reflexivity. Qed.

Lemma valid_links_snoc (x b block : Block) (pre : list Block) :
  valid_links x (pre ++ [b; block])
  = valid_links x (pre ++ [b]) && valid_link b block.
Proof.
  revert x. induction pre as [|y pre IH]; intros x; cbn [app valid_links].
  - rewrite !andb_true_r. reflexivity.
  - rewrite IH. apply andb_assoc.
Qed.

Lemma links_snoc (chain : list Block) (b block : Block) :
  last chain = Some b ->
  links (chain ++ [block]) = links chain && valid_link b block.
Proof.
  intros Hl. apply last_Some in Hl as [pre ->].
  rewrite <- app_assoc. cbn [app].
  destruct pre as [|x pre]; cbn [app links].
  - cbn [valid_links]. apply andb_true_r.
  - apply valid_links_snoc.
Qed.

(** The verdict of the validator on the chain a successful [mine_block]
    leaves: the verdict on the chain before, and the mined proof checked
    against the stored [current_hash] of the last block. *)
Lemma mined_chain_verdict (fuel : nat) (uuid : string) (now : PyFloat)
    (self : Blockchain) (b : Block) (p : Z) :
  current_transactions self <> [] ->
  last (chain self) = Some b ->
  proof_of_work fuel b = Returns p ->
  valid_proof (proof b) p (hash b) = true
  /\ valid_chain (chain (snd (mine_block fuel uuid now self)))
     = Returns (links (chain self)
                && valid_proof (proof b) p (str_of_optional (current_hash b))).
Proof.
  intros Hne Hl Hp. split.
  - exact (proj1 (proof_of_work_loop_returns _ _ fuel 0%Z p Hp)).
  - rewrite (mine_block_forged fuel uuid now self b p Hne Hl Hp). cbn [snd chain].
    destruct (chain self ++ [_])%list as [|b0 rest] eqn:E.
    + destruct (chain self); discriminate.
    + rewrite valid_chain_cons. change (valid_links b0 rest) with (links (b0 :: rest)).
      rewrite <- E. rewrite (links_snoc _ b _ Hl). rewrite mined_block_link.
      reflexivity.
Qed.

(** The two seeds differ on the genesis block of the session: its stored
    [current_hash] is the digest taken while the field was [None], and
    [hash] of the stored block digests the field as well. *)
Example genesis0_seeds :
  current_hash genesis0
  = Some "3b916fbb43f92a8d2d135d4f266c5c71dd64f122132ce6581a0b2c4d38d22924"
  /\ hash genesis0
     = "51ce1512d6d00308f7dff2914bbacac9ad11bff5851a43127915cbba87cf8eae".
Proof. split; vm_compute; reflexivity. Qed.

(** C1 at a failing input: a new ledger, [new_transaction("0", "addrA", 1)],
    then [mine_block].  The block is mined (index 2, proof 31), and
    [valid_chain] returns [False] on the ledger's own chain. *)
Theorem session_chain_rejected :
  fst (run_op (MineBlock 64 uuid0 t1)
              (run_ops [SubmitTransaction "0" "addrA" (Int 1)] (fresh t0)))
  = Returns (Some "New block mined! Block index: 2")
  /\ run_ops session (fresh t0)
     = mkBlockchain []
         [ genesis0;
           stored_block 2 t1
             [ mkTransaction "0" "addrA" (Int 1);
               mkTransaction "0" "3f2b8c1e9d4a4e7b8a6f1c2d3e4f5a6b" (Int 1) ]
             31 (hash genesis0) ]
  /\ valid_chain (chain (run_ops session (fresh t0))) = Returns false.
Proof. split; [|split]; vm_compute; reflexivity. Qed.

(** C2 at a failing input, the genesis block of the session as the ledger
    stores it: its [current_hash] is the digest taken while the field was
    [None], and [hash] of the stored block is another digest, because the
    field is serialised with the rest.  The chain that the validator
    rejects after mining comes from the same defect: the miner seeds its
    search with the second digest, the validator checks the proof against
    the first. *)
Theorem hash_reads_current_hash :
  current_hash genesis0 = Some (hash (set_current_hash None genesis0))
  /\ hash genesis0 <> hash (set_current_hash None genesis0).
Proof. split; [reflexivity | vm_compute; discriminate]. Qed.

(** ** Tamper detection *)

Lemma valid_chain_links (chain : list Block) (v : bool) :
  valid_chain chain = Returns v -> chain <> [] /\ links chain = v.
Proof.
  destruct chain as [|b0 rest]; [discriminate|].
  rewrite valid_chain_cons. intros [= <-]. split; [discriminate | reflexivity].
Qed.

(** Replacing a block that has a successor by one with another digest
    breaks the successor's link. *)
Lemma links_changed_digest (pre post : list Block) (b b' c : Block) :
  links (pre ++ b :: c :: post) = true ->
  hash b' <> hash b ->
  links (pre ++ b' :: c :: post) = false.
Proof.
  intros Hv Hh. induction pre as [|x pre IH].
  - cbn [app links] in *. rewrite valid_links_cons in *.
    apply andb_prop in Hv as [Hl _]. unfold valid_link in *.
    apply andb_prop in Hl as [He _]. apply String.eqb_eq in He.
    assert (Hne : String.eqb (previous_hash c) (hash b') = false).
    { apply String.eqb_neq. congruence. }
    rewrite Hne. reflexivity.
  - cbn [app links] in *.
    destruct pre as [|y pre].
    + cbn [app] in *. rewrite valid_links_cons in *.
      apply andb_prop in Hv as [_ Hv]. rewrite (IH Hv). apply andb_false_r.
    + cbn [app] in *. rewrite valid_links_cons in *.
      apply andb_prop in Hv as [_ Hv]. rewrite (IH Hv). apply andb_false_r.
Qed.

Lemma valid_chain_changed_digest (chain : list Block) (k : nat) (b b' : Block) :
  valid_chain chain = Returns true ->
  chain !! k = Some b ->
  (S k < length chain)%nat ->
  hash b' <> hash b ->
  valid_chain (<[k:=b']> chain) = Returns false.
Proof.
  intros Hv Hk Hlen Hh.
  apply valid_chain_links in Hv as [_ Hv].
  destruct (lookup_lt_is_Some_2 chain (S k) Hlen) as [c Hc].
  assert (Hd : drop (S k) chain = c :: drop (S (S k)) chain).
  { apply drop_S. exact Hc. }
  rewrite insert_take_drop by lia.
  rewrite <- (take_drop_middle chain k b Hk) in Hv.
  rewrite Hd in *.
  pose proof (links_changed_digest _ _ b b' c Hv Hh) as Hf.
  destruct (take k chain ++ b' :: c :: drop (S (S k)) chain)%list as [|b0 rest] eqn:E.
  - destruct (take k chain); discriminate.
  - rewrite valid_chain_cons. cbn [links] in Hf. rewrite Hf. reflexivity.
Qed.

(** A failing check between two neighbours fails the chain. *)
Lemma links_broken_link (pre post : list Block) (a c : Block) :
  valid_link a c = false -> links (pre ++ a :: c :: post) = false.
Proof.
  intros Hf. induction pre as [|x pre IH].
  - cbn [app links]. rewrite valid_links_cons, Hf. reflexivity.
  - cbn [app links] in *.
    destruct pre as [|y pre]; cbn [app] in *;
      rewrite valid_links_cons, IH; apply andb_false_r.
Qed.

Lemma links_link (pre post : list Block) (a c : Block) :
  links (pre ++ a :: c :: post) = true -> valid_link a c = true.
Proof.
  intros Hv. destruct (valid_link a c) eqn:E; [reflexivity|].
  rewrite (links_broken_link pre post a c E) in Hv. discriminate.
Qed.

(** Replacing a block that has a predecessor by one with another
    [previous_hash] fails the comparison with the hash of the predecessor,
    whatever the digests are; the block may be the last one. *)
Lemma valid_chain_changed_previous_hash (chain : list Block) (k : nat) (b b' : Block) :
  valid_chain chain = Returns true ->
  chain !! k = Some b ->
  (0 < k)%nat ->
  previous_hash b' <> previous_hash b ->
  valid_chain (<[k:=b']> chain) = Returns false.
Proof.
  intros Hv Hk Hpos Hh.
  apply valid_chain_links in Hv as [_ Hv].
  destruct k as [|k]; [lia|].
  assert (Hlen : (k < length chain)%nat).
  { apply lookup_lt_Some in Hk. lia. }
  destruct (lookup_lt_is_Some_2 chain k Hlen) as [a Ha].
  assert (Hd : drop k chain = a :: b :: drop (S (S k)) chain).
  { rewrite (drop_S chain a k Ha). f_equal. apply drop_S. exact Hk. }
  assert (Hc : chain = (take k chain ++ a :: b :: drop (S (S k)) chain)%list).
  { rewrite <- Hd. symmetry. apply take_drop. }
  assert (Hi : <[S k:=b']> chain = (take k chain ++ a :: b' :: drop (S (S k)) chain)%list).
  { rewrite Hc at 1.
    rewrite insert_app_r_alt by (rewrite length_take; lia).
    rewrite length_take. replace (S k - k `min` length chain)%nat with 1%nat by lia.
    reflexivity. }
  rewrite Hc in Hv. apply links_link in Hv.
  unfold valid_link in Hv. apply andb_prop in Hv as [He _]. apply String.eqb_eq in He.
  assert (Hf : valid_link a b' = false).
  { unfold valid_link.
    assert (Hne : String.eqb (previous_hash b') (hash a) = false).
    { apply String.eqb_neq. congruence. }
    rewrite Hne. reflexivity. }
  rewrite Hi.
  pose proof (links_broken_link (take k chain) (drop (S (S k)) chain) a b' Hf) as Hl.
  destruct (take k chain ++ a :: b' :: drop (S (S k)) chain)%list as [|b0 rest] eqn:E.
  - destruct (take k chain); discriminate.
  - rewrite valid_chain_cons. cbn [links] in Hl. rewrite Hl. reflexivity.
Qed.

(** C9 as amended: on a chain the validator accepts, putting [b'] in the
    place of the block [b] makes the validator return [False]

    - when [b] has a predecessor and [b'] has another [previous_hash]: the
      comparison with the hash of the predecessor fails, for the last block
      as for any other;
    - when [b] is not the last block and the digest of [b'] differs from the
      digest of [b]: the comparison made for the successor fails.

    A change of one field ([index], [timestamp], [transactions], [proof] or
    [previous_hash]) is such a replacement, and so is any other. *)
Theorem tampering_detected (chain : list Block) (k : nat) (b b' : Block) :
  valid_chain chain = Returns true ->
  chain !! k = Some b ->
  ((0 < k)%nat /\ previous_hash b' <> previous_hash b)
  \/ ((S k < length chain)%nat /\ hash b' <> hash b) ->
  valid_chain (<[k:=b']> chain) = Returns false.
Proof.
  intros Hv Hk [[Hpos Hp]|[Hlen Hh]].
  - exact (valid_chain_changed_previous_hash chain k b b' Hv Hk Hpos Hp).
  - exact (valid_chain_changed_digest chain k b b' Hv Hk Hlen Hh).
Qed.

Lemma tampering_detected_witness :
  valid_chain accepted_chain = Returns true
  /\ valid_chain (<[0%nat := set_proof 101 genesis0]> accepted_chain) = Returns false
  /\ valid_chain
       (<[1%nat := set_previous_hash "1"
                     (stored_block 2 t1 [mkTransaction "0" "addrA" (Int 1)] 147
                                   (hash genesis0))]> accepted_chain)
     = Returns false.
Proof.
  assert (Hv : valid_chain accepted_chain = Returns true) by (vm_compute; reflexivity).
  split; [exact Hv|]. split.
  - apply (tampering_detected accepted_chain 0 genesis0 (set_proof 101 genesis0) Hv).
    + reflexivity.
    + right. split; [cbn; lia | vm_compute; discriminate].
  - apply (tampering_detected accepted_chain 1
             (stored_block 2 t1 [mkTransaction "0" "addrA" (Int 1)] 147 (hash genesis0))
             (set_previous_hash "1"
                (stored_block 2 t1 [mkTransaction "0" "addrA" (Int 1)] 147 (hash genesis0)))
             Hv).
    + reflexivity.
    + left. split; [lia | vm_compute; discriminate].
Defined.

(** ** Digests are drawn from a finite set *)

Module SHA256Facts.
Import SHA256.
Local Open Scope N_scope.

Lemma add32_lt (x y : N) : add32 x y < 2 ^ 32.
Proof.
  unfold add32. change mask32 with (N.ones 32). rewrite N.land_ones.
  apply N.mod_lt. discriminate.
Qed.

Lemma H0_word_state : word_state H0.
Proof. split; [reflexivity|]. repeat constructor. Qed.

Lemma compress_word_state (h block : list N) : word_state (compress h block).
Proof.
  unfold compress. split; [reflexivity|].
  repeat (constructor; [apply add32_lt|]). constructor.
Qed.

Lemma blocks_word_state (n : nat) (h bs : list N) :
  word_state h -> word_state (blocks n h bs).
Proof.
  revert h bs. induction n as [|n IH]; intros h bs H; [exact H|].
  cbn [blocks]. apply IH. apply compress_word_state.
Qed.

Lemma final_state_word_state (msg : list N) : word_state (final_state msg).
Proof. unfold final_state. apply blocks_word_state, H0_word_state. Qed.

Lemma pack_lt (h : list N) :
  Forall (fun w => w < 2 ^ 32) h -> pack h < (2 ^ 32) ^ N.of_nat (length h).
Proof.
  induction 1 as [|w h Hw Hh IH].
  - cbn. lia.
  - cbn [pack fold_right length]. fold (pack h).
    rewrite Nat2N.inj_succ, N.pow_succ_r'.
    assert (0 < (2 ^ 32) ^ N.of_nat (length h)) by (apply N.neq_0_lt_0, N.pow_nonzero; discriminate).
    nia.
Qed.

Lemma pack_inj (h1 h2 : list N) :
  Forall (fun w => w < 2 ^ 32) h1 ->
  Forall (fun w => w < 2 ^ 32) h2 ->
  length h1 = length h2 ->
  pack h1 = pack h2 ->
  h1 = h2.
Proof.
  intros H1. revert h2. induction H1 as [|w1 h1 Hw1 Hh1 IH]; intros h2 H2 Hlen Hp.
  - destruct h2; [reflexivity|discriminate].
  - destruct H2 as [|w2 h2 Hw2 Hh2]; [discriminate|].
    cbn [pack fold_right] in Hp. fold (pack h1) in Hp. fold (pack h2) in Hp.
    change (2 ^ 32) with 4294967296 in *.
    assert (w1 = w2 /\ pack h1 = pack h2) as [-> Hp'] by lia.
    f_equal. apply IH; [exact Hh2 | cbn in Hlen; lia | exact Hp'].
Qed.

Lemma pack_final_state_lt (msg : list N) : pack (final_state msg) < 2 ^ 256.
Proof.
  destruct (final_state_word_state msg) as [Hl Hf].
  pose proof (pack_lt _ Hf) as H. rewrite Hl in H. exact H.
Qed.

Lemma pack_final_state_inj (msg1 msg2 : list N) :
  pack (final_state msg1) = pack (final_state msg2) ->
  hexdigest msg1 = hexdigest msg2.
Proof.
  intros H. unfold hexdigest, digest. f_equal. f_equal.
  destruct (final_state_word_state msg1) as [Hl1 Hf1].
  destruct (final_state_word_state msg2) as [Hl2 Hf2].
  apply pack_inj; [exact Hf1 | exact Hf2 | congruence | exact H].
Qed.

(** Among the first [n] numbers, one has the property or none has. *)
Lemma bounded_search (P : N -> Prop) (dec : forall i, {P i} + {~ P i}) (n : N) :
  (exists i, i < n /\ P i) \/ (forall i, i < n -> ~ P i).
Proof.
  induction n as [|n IH] using N.peano_ind.
  - right. intros i Hi. lia.
  - destruct IH as [(i & Hi & HP)|Hnone].
    + left. exists i. split; [lia | exact HP].
    + destruct (dec n) as [HP|HP].
      * left. exists n. split; [lia | exact HP].
      * right. intros i Hi. destruct (N.eq_dec i n) as [->|Hne]; [exact HP|].
        apply Hnone. lia.
Qed.

(** The pigeonhole principle: [m + 1] numbers below [m] are not all
    different. *)
Lemma pigeonhole (m : N) (f : N -> N) :
  (forall i, i <= m -> f i < m) ->
  exists i j, i < j /\ j <= m /\ f i = f j.
Proof.
  revert f. induction m as [|m IH] using N.peano_ind; intros f Hf.
  - specialize (Hf 0). lia.
  - destruct (bounded_search (fun i => f i = f (N.succ m))
                             (fun i => N.eq_dec (f i) (f (N.succ m))) (N.succ m))
      as [(i & Hi & He)|Hnone].
    + exists i, (N.succ m). repeat split; [exact Hi | lia | exact He].
    + set (v := f (N.succ m)) in *.
      set (g := fun i => if f i <? v then f i else f i - 1).
      assert (Hv : v < N.succ m) by (apply Hf; lia).
      destruct (IH g) as (i & j & Hij & Hj & He).
      { intros i Hi. unfold g.
        assert (f i < N.succ m) by (apply Hf; lia).
        assert (f i <> v) by (apply Hnone; lia).
        destruct (N.ltb_spec (f i) v); lia. }
      exists i, j. repeat split; [exact Hij | lia |].
      assert (f i <> v) by (apply Hnone; lia).
      assert (f j <> v) by (apply Hnone; lia).
      unfold g in He.
      destruct (N.ltb_spec (f i) v); destruct (N.ltb_spec (f j) v); lia.
Qed.

End SHA256Facts.

(** Two blocks with the same digest number have the same hash. *)
Lemma hash_number_eq (b b' : Block) :
  hash_number b = hash_number b' -> hash b = hash b'.
Proof. apply SHA256Facts.pack_final_state_inj. Qed.

(** Among the blocks [variant 0 .. variant (2 ^ 256)] two have the same
    hash. *)
Lemma variant_collision :
  exists i j : N,
    (i < j)%N /\ (j <= 2 ^ 256)%N /\ hash (variant i) = hash (variant j).
Proof.
  destruct (SHA256Facts.pigeonhole (2 ^ 256) (fun i => hash_number (variant i)))
    as (i & j & Hij & Hj & He).
  - intros i _. apply SHA256Facts.pack_final_state_lt.
  - exists i, j. split; [exact Hij|]. split; [exact Hj|]. apply hash_number_eq. exact He.
Qed.

Lemma variant_seed_valid :
  valid_proof 100 147 (str_of_optional (current_hash genesis0)) = true.
Proof. vm_compute. reflexivity. Qed.

Lemma variant_chain_valid (i j : N) :
  hash (variant i) = hash (variant j) ->
  valid_chain (<[0%nat := variant j]> (variant_chain i)) = Returns true.
Proof.
  intros He. unfold variant_chain. cbn [insert list_insert].
  rewrite valid_chain_cons. cbn [valid_links]. unfold valid_link.
  change (proof (variant j)) with 100%Z.
  change (current_hash (variant j)) with (current_hash genesis0).
  cbn [previous_hash proof stored_block set_current_hash].
  rewrite He, String.eqb_refl, variant_seed_valid. reflexivity.
Qed.

(** A valid chain in which changing the index of the first block, to a
    number of at most 78 digits, goes unnoticed. *)
Lemma tampering_unnoticed :
  exists (i j : N),
    (i < j)%N /\ (j <= 2 ^ 256)%N
    /\ valid_chain (variant_chain i) = Returns true
    /\ variant_chain i !! 0%nat = Some (variant i)
    /\ (1 < length (variant_chain i))%nat
    /\ tampered (variant i) (variant j)
    /\ valid_chain (<[0%nat := variant j]> (variant_chain i)) = Returns true.
Proof.
  destruct variant_collision as (i & j & Hij & Hj & He).
  exists i, j.
  split; [exact Hij|]. split; [exact Hj|].
  split; [|split; [|split; [|split]]].
  - apply (variant_chain_valid i i eq_refl).
  - reflexivity.
  - cbn. lia.
  - change (variant j) with (set_index (Z.of_N j) (variant i)).
    apply tampered_index. change (index (variant i)) with (Z.of_N i). lia.
  - apply variant_chain_valid. exact He.
Qed.

(** The proviso on the digest cannot be dropped for [index]: it is not the
    case that every change of one field of a block that has a successor makes
    the validator return [False]. *)
Lemma tampering_not_always_detected :
  ~ (forall (chain : list Block) (k : nat) (b b' : Block),
        valid_chain chain = Returns true ->
        chain !! k = Some b ->
        (S k < length chain)%nat ->
        tampered b b' ->
        valid_chain (<[k:=b']> chain) = Returns false).
Proof.
  intros H.
  destruct tampering_unnoticed as (i & j & _ & _ & Hv & Hk & Hlen & Ht & Hu).
  specialize (H (variant_chain i) 0%nat (variant i) (variant j) Hv Hk Hlen Ht).
  congruence.
Qed.

(** ** Texts beyond code point 255 *)

(** On code points below 256 the escapes of [Unicode] are those of
    [Json]. *)
Lemma escape_code_point_narrow (c : ascii) :
  Unicode.escape_code_point (N_of_ascii c) = Json.escape_char c.
Proof.
  unfold Unicode.escape_code_point.
  pose proof (N_ascii_bounded c) as Hc.
  apply N.ltb_lt in Hc. rewrite Hc, ascii_N_embedding. reflexivity.
Qed.

Lemma json_str_narrow (s : string) :
  Unicode.json_str (Unicode.of_string s) = Json.str s.
Proof.
  unfold Unicode.json_str, Json.str, Unicode.of_string. f_equal. f_equal.
  induction s as [|c s IH]; [reflexivity|].
  cbn [list_ascii_of_string map Unicode.escape Json.escape].
  rewrite escape_code_point_narrow, IH. reflexivity.
Qed.

Lemma json_transaction_widen (t : Transaction) :
  Unicode.json_transaction (widen_transaction t) = json_transaction t.
Proof.
  unfold Unicode.json_transaction, json_transaction, widen_transaction.
  cbn [Unicode.amount Unicode.recipient Unicode.sender].
  rewrite !json_str_narrow. reflexivity.
Qed.

(** The hasher of [Unicode] is the hasher above on the blocks they share. *)
Lemma hash_widen (b : Block) : Unicode.hash (widen b) = hash b.
Proof.
  unfold Unicode.hash, hash, Unicode.json_block, json_block, widen.
  cbn [Unicode.current_hash Unicode.index Unicode.previous_hash Unicode.proof
       Unicode.timestamp Unicode.transactions].
  rewrite map_map.
  rewrite (map_ext _ _ json_transaction_widen). reflexivity.
Qed.

Lemma valid_chain_loop_widen (fuel : nat) (chain : list Block) (last_block : Block)
    (current_index : nat) :
  Unicode.valid_chain_loop fuel (map widen chain) (widen last_block) current_index
  = valid_chain_loop fuel chain last_block current_index.
Proof.
  revert last_block current_index.
  induction fuel as [|fuel IH]; intros last_block current_index; [reflexivity|].
  cbn [Unicode.valid_chain_loop valid_chain_loop].
  rewrite length_map.
  change (map widen chain) with (widen <$> chain).
  rewrite list_lookup_fmap.
  destruct (current_index <? length chain)%nat; [|reflexivity].
  destruct (chain !! current_index) as [block|]; [|reflexivity].
  cbn [fmap option_fmap option_map].
  rewrite hash_widen.
  change (Unicode.previous_hash (widen block)) with (previous_hash block).
  change (Unicode.proof (widen block)) with (proof block).
  change (Unicode.proof (widen last_block)) with (proof last_block).
  change (Unicode.current_hash (widen last_block)) with (current_hash last_block).
  destruct (negb _); [reflexivity|].
  destruct (negb _); [reflexivity|].
  apply IH.
Qed.

(** The validator of [Unicode] is the validator above on the chains they
    share. *)
Lemma valid_chain_widen (chain : list Block) :
  Unicode.valid_chain (map widen chain) = valid_chain chain.
Proof.
  unfold Unicode.valid_chain, valid_chain.
  rewrite length_map.
  destruct chain as [|b0 rest]; [reflexivity|].
  cbn [map lookup list_lookup].
  change (widen b0 :: map widen rest) with (map widen (b0 :: rest)).
  apply valid_chain_loop_widen.
Qed.

(** [json.dumps] writes [chr(0x1F600)] and [chr(0xD83D) + chr(0xDE00)] as
    the same text, so the block [paid_block] and the block with the sender
    replaced are serialised alike and have the same hash. *)
Example paid_block_digests :
  Unicode.json_str Unicode.grin = Unicode.json_str Unicode.grin_pair
  /\ Unicode.current_hash Unicode.paid_block
     = Some "964639e41e66ca5a38c15c56c32c983aa5b7ccbc9cd71f2110c3aca507331689"
  /\ Unicode.hash Unicode.paid_block
     = "42e04f89d039a5f79ba15f7de9260dfa85e978abe79d5040e8b0dcdf4629add9"
  /\ Unicode.hash (Unicode.set_transactions [Unicode.payment Unicode.grin_pair]
                                            Unicode.paid_block)
     = "42e04f89d039a5f79ba15f7de9260dfa85e978abe79d5040e8b0dcdf4629add9".
Proof. split; [|split; [|split]]; vm_compute; reflexivity. Qed.

(** C9 fails at this input: the validator returns [True] on [paid_chain];
    in its first block, which is not the last one, the sender
    [chr(0x1F600)] of the transaction is replaced by the different text
    [chr(0xD83D) + chr(0xDE00)], every other field and the stored hashes
    being left alone; the validator returns [True] on the changed chain. *)
Lemma surrogate_pair_undetected :
  Unicode.valid_chain Unicode.paid_chain = Returns true
  /\ Unicode.paid_chain !! 0%nat = Some Unicode.paid_block
  /\ (1 < length Unicode.paid_chain)%nat
  /\ [Unicode.payment Unicode.grin_pair] <> Unicode.transactions Unicode.paid_block
  /\ Unicode.valid_chain
       (<[0%nat := Unicode.set_transactions [Unicode.payment Unicode.grin_pair]
                     Unicode.paid_block]> Unicode.paid_chain)
     = Returns true.
Proof.
  split; [|split; [|split; [|split]]].
  - vm_compute. reflexivity.
  - reflexivity.
  - cbn. lia.
  - cbn. discriminate.
  - vm_compute. reflexivity.
Qed.

(** ** Texts and their bytes *)

Section PrefixCode.

Context {B : Type} (eqb : B -> B -> bool).
Hypothesis eqb_spec : forall x y, eqb x y = true <-> x = y.

Lemma is_prefix_app (l1 l2 : list B) :
  is_prefix eqb l1 l2 = true -> exists r, l2 = (l1 ++ r)%list.
Proof.
  revert l2. induction l1 as [|x l1 IH]; intros l2 H.
  - exists l2. reflexivity.
  - destruct l2 as [|y l2]; [discriminate|]. cbn in H.
    apply andb_prop in H as [Hxy H]. apply eqb_spec in Hxy as ->.
    destruct (IH _ H) as [r ->]. exists r. reflexivity.
Qed.

Lemma app_eq_is_prefix (l1 l2 x y : list B) :
  (l1 ++ x = l2 ++ y)%list ->
  is_prefix eqb l1 l2 = true \/ is_prefix eqb l2 l1 = true.
Proof.
  revert l2. induction l1 as [|a l1 IH]; intros l2 H.
  - left. reflexivity.
  - destruct l2 as [|b l2]; [right; reflexivity|].
    cbn [app] in H. injection H as -> H.
    assert (Hbb : eqb b b = true) by (apply eqb_spec; reflexivity).
    cbn [is_prefix]. rewrite Hbb. cbn [andb]. apply IH. exact H.
Qed.

Variable E : ascii -> list B.
Hypothesis E_prefix_free : prefix_free eqb E = true.

Lemma all_ascii_complete (a : ascii) : In a all_ascii.
Proof.
  unfold all_ascii. rewrite <- (ascii_nat_embedding a).
  apply in_map, in_seq. pose proof (nat_ascii_bounded a). lia.
Qed.

Lemma code_word_nonempty (a : ascii) : E a <> [].
Proof.
  unfold prefix_free in E_prefix_free.
  rewrite forallb_forall in E_prefix_free.
  specialize (E_prefix_free a (all_ascii_complete a)).
  apply andb_prop in E_prefix_free as [H _].
  destruct (E a); [discriminate H | discriminate].
Qed.

Lemma code_word_prefix (a1 a2 : ascii) :
  is_prefix eqb (E a1) (E a2) = true -> a1 = a2.
Proof.
  intros H. unfold prefix_free in E_prefix_free.
  rewrite forallb_forall in E_prefix_free.
  specialize (E_prefix_free a1 (all_ascii_complete a1)).
  apply andb_prop in E_prefix_free as [_ H2].
  rewrite forallb_forall in H2. specialize (H2 a2 (all_ascii_complete a2)).
  rewrite H in H2. cbn in H2. apply Ascii.eqb_eq. exact H2.
Qed.

(** The first code word of a text determines its character. *)
Lemma code_word_head (a1 a2 : ascii) (x y : list B) :
  (E a1 ++ x = E a2 ++ y)%list -> a1 = a2.
Proof.
  intros H. destruct (app_eq_is_prefix _ _ _ _ H) as [Hp|Hp].
  - apply code_word_prefix. exact Hp.
  - symmetry. apply code_word_prefix. exact Hp.
Qed.

(** A text has one reading. *)
Lemma flat_map_code_inj (l1 l2 : list ascii) :
  flat_map E l1 = flat_map E l2 -> l1 = l2.
Proof.
  revert l2. induction l1 as [|a1 l1 IH]; intros l2 H.
  - destruct l2 as [|a2 l2]; [reflexivity|]. cbn in H.
    symmetry in H. apply app_eq_nil in H as [H _].
    exfalso. exact (code_word_nonempty a2 H).
  - destruct l2 as [|a2 l2]; cbn in H.
    + apply app_eq_nil in H as [H _]. exfalso. exact (code_word_nonempty a1 H).
    + pose proof (code_word_head _ _ _ _ H) as <-.
      apply app_inv_head in H. f_equal. apply IH. exact H.
Qed.

End PrefixCode.

Lemma list_ascii_of_string_app (s1 s2 : string) :
  list_ascii_of_string (s1 ++ s2)
  = (list_ascii_of_string s1 ++ list_ascii_of_string s2)%list.
Proof. induction s1 as [|c s1 IH]; cbn; [reflexivity | rewrite IH; reflexivity]. Qed.

Lemma list_ascii_of_string_inj (s1 s2 : string) :
  list_ascii_of_string s1 = list_ascii_of_string s2 -> s1 = s2.
Proof.
  intros H. rewrite <- (string_of_list_ascii_of_string s1).
  rewrite <- (string_of_list_ascii_of_string s2). rewrite H. reflexivity.
Qed.

Lemma append_assoc (s1 s2 s3 : string) : (s1 ++ s2) ++ s3 = s1 ++ s2 ++ s3.
Proof. induction s1 as [|c s1 IH]; cbn; [reflexivity | rewrite IH; reflexivity]. Qed.

Lemma append_inv_head (s t1 t2 : string) : s ++ t1 = s ++ t2 -> t1 = t2.
Proof.
  intros H. apply list_ascii_of_string_inj.
  apply (f_equal list_ascii_of_string) in H.
  rewrite !list_ascii_of_string_app in H. exact (app_inv_head _ _ _ H).
Qed.

Lemma append_inv_tail (s1 s2 t : string) : s1 ++ t = s2 ++ t -> s1 = s2.
Proof.
  intros H. apply list_ascii_of_string_inj.
  apply (f_equal list_ascii_of_string) in H.
  rewrite !list_ascii_of_string_app in H. exact (app_inv_tail _ _ _ H).
Qed.

Lemma encode_char_prefix_free : prefix_free N.eqb encode_char = true.
Proof. vm_compute. reflexivity. Qed.

(** [str.encode()] is injective. *)
Lemma encode_inj (s1 s2 : string) : encode s1 = encode s2 -> s1 = s2.
Proof.
  intros H. apply list_ascii_of_string_inj.
  exact (flat_map_code_inj N.eqb N.eqb_eq encode_char encode_char_prefix_free _ _ H).
Qed.

(** ** The ledger with its lists as objects *)

Module StoreFacts.

Lemma deref_insert_eq (h : list (list Transaction)) (a : nat) (x : list Transaction) :
  (a < length h)%nat -> Store.deref (<[a:=x]> h) a = x.
Proof. intros H. unfold Store.deref. rewrite list_lookup_insert_eq by exact H. reflexivity. Qed.

Lemma deref_insert_ne (h : list (list Transaction)) (a a' : nat) (x : list Transaction) :
  a <> a' -> Store.deref (<[a:=x]> h) a' = Store.deref h a'.
Proof. intros H. unfold Store.deref. rewrite list_lookup_insert_ne by exact H. reflexivity. Qed.

Lemma deref_app_l (h k : list (list Transaction)) (a : nat) :
  (a < length h)%nat -> Store.deref (h ++ k) a = Store.deref h a.
Proof. intros H. unfold Store.deref. rewrite lookup_app_l by exact H. reflexivity. Qed.

Lemma deref_app_new (h : list (list Transaction)) (x : list Transaction) :
  Store.deref (h ++ [x]) (length h) = x.
Proof.
  unfold Store.deref. rewrite lookup_app_r by lia. rewrite Nat.sub_diag. reflexivity.
Qed.

(** Appending to the Store.pending list changes no block. *)
Lemma blocks_value_insert (l : Store.Ledger) (x : list Transaction) :
  Store.separate l ->
  Store.block_value (<[Store.pending l := x]> (Store.heap l)) <$> Store.blocks l
  = Store.block_value (Store.heap l) <$> Store.blocks l.
Proof.
  intros [_ Hs]. apply list_fmap_ext. intros i o Ho.
  pose proof (proj1 (Forall_lookup _ _) Hs i o Ho) as [_ Hne].
  unfold Store.block_value. rewrite deref_insert_ne by congruence. reflexivity.
Qed.

(** Allocating a list changes no block. *)
Lemma blocks_value_app (l : Store.Ledger) (k : list (list Transaction)) :
  Store.separate l ->
  Store.block_value (Store.heap l ++ k) <$> Store.blocks l = Store.block_value (Store.heap l) <$> Store.blocks l.
Proof.
  intros [_ Hs]. apply list_fmap_ext. intros i o Ho.
  pose proof (proj1 (Forall_lookup _ _) Hs i o Ho) as [Hlt _].
  unfold Store.block_value. rewrite deref_app_l by exact Hlt. reflexivity.
Qed.

Lemma last_value (l : Store.Ledger) :
  last (chain (Store.value l)) = Store.block_value (Store.heap l) <$> last (Store.blocks l).
Proof. unfold Store.value. cbn [chain]. apply fmap_last. Qed.

Lemma separate_insert (l : Store.Ledger) (x : list Transaction) :
  Store.separate l -> Store.separate (Store.mkLedger (<[Store.pending l := x]> (Store.heap l)) (Store.pending l) (Store.blocks l)).
Proof.
  intros [Hp Hs]. unfold Store.separate. cbn [Store.heap Store.pending Store.blocks].
  rewrite length_insert. split; assumption.
Qed.

(** [new_transaction] on the objects is [new_transaction] on the Store.value. *)
Lemma new_transaction_value (s r : string) (a : Number) (l : Store.Ledger) :
  Store.separate l ->
  (fst (Store.new_transaction s r a l), Store.value (snd (Store.new_transaction s r a l)))
  = new_transaction s r a (Store.value l)
  /\ Store.separate (snd (Store.new_transaction s r a l)).
Proof.
  intros Hs. pose proof Hs as [Hp _].
  unfold Store.new_transaction. cbn [Store.blocks].
  set (l' := Store.mkLedger _ _ _).
  assert (Hv : Store.value l'
               = mkBlockchain (current_transactions (Store.value l) ++ [mkTransaction s r a])
                              (chain (Store.value l))).
  { unfold Store.value, l'. cbn [Store.heap Store.pending Store.blocks current_transactions chain].
    rewrite deref_insert_eq by exact Hp. rewrite blocks_value_insert by exact Hs.
    reflexivity. }
  assert (Hs' : Store.separate l') by (apply separate_insert; exact Hs).
  destruct (last (Store.blocks l)) as [o|] eqn:Hl; cbn [fst snd]; (split; [|exact Hs']).
  - rewrite (new_transaction_some s r a (Store.value l) (Store.block_value (Store.heap l) o)).
    + rewrite Hv. reflexivity.
    + rewrite last_value, Hl. reflexivity.
  - rewrite new_transaction_empty.
    + rewrite Hv. reflexivity.
    + apply last_None in Hl. unfold Store.value. cbn [chain]. rewrite Hl. reflexivity.
Qed.

Lemma separate_alloc (l : Store.Ledger) (o : Store.BlockObj) :
  Store.separate l ->
  Store.obj_transactions o = Store.pending l ->
  Store.separate (Store.mkLedger (Store.heap l ++ [[]]) (length (Store.heap l)) (Store.blocks l ++ [o])).
Proof.
  intros [Hp Hs] Ho. unfold Store.separate. cbn [Store.heap Store.pending Store.blocks].
  rewrite length_app. cbn [length]. split; [lia|].
  apply Forall_app. split.
  - eapply Forall_impl; [exact Hs|]. cbn. intros o' [Hlt _]. lia.
  - constructor; [|constructor]. rewrite Ho. lia.
Qed.

(** [new_block] on the objects is [new_block] on the Store.value. *)
Lemma new_block_value (now : PyFloat) (p : Z) (ph : option string) (l : Store.Ledger) :
  Store.separate l ->
  (outcome_map (Store.block_value (Store.heap (snd (Store.new_block now p ph l))))
               (fst (Store.new_block now p ph l)),
   Store.value (snd (Store.new_block now p ph l)))
  = new_block now p ph (Store.value l)
  /\ Store.separate (snd (Store.new_block now p ph l)).
Proof.
  intros Hs. pose proof Hs as [Hp _].
  assert (Hlen : length (chain (Store.value l)) = length (Store.blocks l)).
  { unfold Store.value. cbn [chain]. apply length_fmap. }
  assert (Hstep : forall prev : string,
    let o := Store.mkBlockObj (Z.of_nat (length (Store.blocks l)) + 1) now (Store.pending l) p prev
               (Some (hash (Store.block_value (Store.heap l)
                              (Store.mkBlockObj (Z.of_nat (length (Store.blocks l)) + 1) now
                                                (Store.pending l) p prev None)))) in
    let l' := Store.mkLedger (Store.heap l ++ [[]]) (length (Store.heap l)) (Store.blocks l ++ [o]) in
    let block := stored_block (Z.of_nat (length (chain (Store.value l))) + 1) now
                              (current_transactions (Store.value l)) p prev in
    Store.block_value (Store.heap l') o = block
    /\ Store.value l' = mkBlockchain [] (chain (Store.value l) ++ [block])
    /\ Store.separate l').
  { intros prev o l' block.
    assert (Hb : Store.block_value (Store.heap l') o = block).
    { unfold Store.block_value, l', o, block, stored_block, set_current_hash.
      cbn [Store.heap Store.obj_index Store.obj_timestamp Store.obj_transactions Store.obj_proof Store.obj_previous_hash
           Store.obj_current_hash index timestamp transactions proof previous_hash].
      rewrite deref_app_l by exact Hp. rewrite Hlen. reflexivity. }
    split; [exact Hb|]. split.
    - unfold l' in *. unfold Store.value at 1.
      cbn [Store.heap Store.pending Store.blocks] in *.
      rewrite deref_app_new. rewrite fmap_app. cbn [fmap list_fmap].
      rewrite Hb. rewrite blocks_value_app by exact Hs. reflexivity.
    - apply separate_alloc; [exact Hs | reflexivity]. }
  unfold Store.new_block.
  destruct (truthy ph) eqn:Ht.
  - destruct (Hstep (str_of_optional ph)) as (Hb & Hv & Hs').
    cbn [fst snd outcome_map Store.obj_index Store.obj_timestamp Store.obj_transactions
         Store.obj_proof Store.obj_previous_hash] in *.
    rewrite (new_block_given now p ph (Store.value l) Ht).
    split; [|exact Hs']. rewrite Hv. f_equal. f_equal. exact Hb.
  - destruct (last (Store.blocks l)) as [o|] eqn:Hl.
    + destruct (Hstep (hash (Store.block_value (Store.heap l) o))) as (Hb & Hv & Hs').
      cbn [fst snd outcome_map Store.obj_index Store.obj_timestamp Store.obj_transactions
           Store.obj_proof Store.obj_previous_hash] in *.
      rewrite (new_block_linked now p ph (Store.value l) (Store.block_value (Store.heap l) o) Ht).
      * split; [|exact Hs']. rewrite Hv. f_equal. f_equal. exact Hb.
      * rewrite last_value, Hl. reflexivity.
    + cbn [fst snd outcome_map]. split; [|exact Hs].
      rewrite new_block_unlinked; [reflexivity | exact Ht |].
      apply last_None in Hl. unfold Store.value. cbn [chain]. rewrite Hl. reflexivity.
Qed.

(** [mine_block] on the objects is [mine_block] on the value. *)
Lemma mine_block_value (fuel : nat) (uuid : string) (now : PyFloat) (l : Store.Ledger) :
  Store.separate l ->
  (fst (Store.mine_block fuel uuid now l), Store.value (snd (Store.mine_block fuel uuid now l)))
  = mine_block fuel uuid now (Store.value l)
  /\ Store.separate (snd (Store.mine_block fuel uuid now l)).
Proof.
  intros Hs. unfold Store.mine_block.
  destruct (Store.deref (Store.heap l) (Store.pending l)) as [|t ts] eqn:Hd.
  { cbn [fst snd]. split; [|exact Hs].
    rewrite mine_block_nothing; [reflexivity | exact Hd]. }
  assert (Hne : current_transactions (Store.value l) <> []).
  { unfold Store.value. cbn [current_transactions]. rewrite Hd. discriminate. }
  destruct (last (Store.blocks l)) as [o|] eqn:Hl.
  2:{ cbn [fst snd]. split; [|exact Hs].
      rewrite mine_block_no_chain; [reflexivity | exact Hne |].
      apply last_None in Hl. unfold Store.value. cbn [chain]. rewrite Hl. reflexivity. }
  assert (Hlv : last (chain (Store.value l)) = Some (Store.block_value (Store.heap l) o)).
  { rewrite last_value, Hl. reflexivity. }
  destruct (proof_of_work_cases fuel (Store.block_value (Store.heap l) o)) as [[p Hp]|Hp];
    rewrite Hp.
  2:{ cbn [fst snd]. split; [|exact Hs].
      rewrite (mine_block_stalled fuel uuid now _ _ Hne Hlv Hp). reflexivity. }
  rewrite (mine_block_steps fuel uuid now _ _ p Hne Hlv Hp).
  destruct (new_transaction_value "0" (remove_dashes uuid) (Int 1) l Hs) as [Ht Hs1].
  destruct (Store.new_transaction "0" (remove_dashes uuid) (Int 1) l) as [r1 l1].
  cbn [fst snd] in Ht, Hs1. rewrite <- Ht. cbn [snd].
  destruct (new_block_value now p None l1 Hs1) as [Hb Hs2].
  rewrite <- Hb.
  destruct (Store.new_block now p None l1) as [[block| e |] l2];
    cbn [fst snd outcome_map] in *; (split; [reflexivity | exact Hs2]).
Qed.

Lemma separate_empty : Store.separate Store.empty_ledger.
Proof. split; [cbn; lia | constructor]. Qed.

(** [__init__] on the objects is [__init__] on the value. *)
Lemma init_value (now : PyFloat) :
  (outcome_map (Store.block_value (Store.heap (snd (Store.init now)))) (fst (Store.init now)),
   Store.value (snd (Store.init now)))
  = init now
  /\ Store.separate (snd (Store.init now)).
Proof. exact (new_block_value now 100 (Some "1") Store.empty_ledger separate_empty). Qed.

(** C8 read on the objects: when no block holds the pending list,
    [new_transaction] leaves the value of every block as it was. *)
Lemma new_transaction_blocks (s r : string) (a : Number) (l : Store.Ledger) :
  Store.separate l ->
  chain (Store.value (snd (Store.new_transaction s r a l))) = chain (Store.value l)
  /\ current_transactions (Store.value (snd (Store.new_transaction s r a l)))
     = (current_transactions (Store.value l) ++ [mkTransaction s r a])%list.
Proof.
  intros Hs. destruct (new_transaction_value s r a l Hs) as [Hv _].
  apply (f_equal snd) in Hv. cbn [snd] in Hv. rewrite Hv.
  destruct (last (chain (Store.value l))) as [b|] eqn:Hl.
  - rewrite (new_transaction_some s r a _ b Hl). split; reflexivity.
  - apply last_None in Hl. rewrite (new_transaction_empty s r a _ Hl). split; reflexivity.
Qed.

(** Without the separation the frame fails: in [shared_ledger] the
    transaction appended to the pending list shows up in the genesis
    block. *)
Example shared_list_changes_block :
  ~ Store.separate shared_ledger
  /\ chain (Store.value shared_ledger) = [mkBlock 1 t0 [] 100 "1" None]
  /\ chain (Store.value (snd (Store.new_transaction "0" "addrA" (Int 1) shared_ledger)))
     = [mkBlock 1 t0 [mkTransaction "0" "addrA" (Int 1)] 100 "1" None].
Proof.
  split; [|split; reflexivity].
  intros [_ H]. inversion H as [|o os [_ Hne] _]. apply Hne. reflexivity.
Qed.

End StoreFacts.

(** ** Instances *)

Lemma search_result_verifies_witness :
  search 64 100 (hash genesis0) = Returns 31%Z
  /\ valid_proof 100 31 (hash genesis0) = true.
Proof.
  assert (H : search 64 100 (hash genesis0) = Returns 31%Z) by (vm_compute; reflexivity).
  split; [exact H|].
  exact (proj1 (search_result_verifies 100 (hash genesis0)) 64%nat 31%Z H).
Defined.

Lemma search_result_least_witness :
  search 64 0 "None" = Returns 45%Z
  /\ forall q : Z, (0 <= q < 45)%Z -> valid_proof 0 q "None" = false.
Proof.
  assert (H : search 64 0 "None" = Returns 45%Z) by (vm_compute; reflexivity).
  split; [exact H|].
  exact (proj2 (proj2 (proj1 (search_result_least 0 "None") 64%nat 45%Z H))).
Defined.

Lemma valid_chain_short_witness :
  (length [genesis0] < 2)%nat /\ valid_chain [genesis0] = Returns true.
Proof.
  assert (H : (length [genesis0] < 2)%nat) by (cbn; lia).
  split; [exact H|]. exact (valid_chain_short [genesis0] H).
Defined.

Lemma mine_block_rejected_witness :
  current_transactions (fresh t0) = []
  /\ fst (mine_block 64 uuid0 t1 (fresh t0)) = Returns no_transactions
  /\ snd (mine_block 64 uuid0 t1 (fresh t0)) = fresh t0.
Proof.
  assert (H : current_transactions (fresh t0) = []) by reflexivity.
  split; [exact H|].
  destruct (mine_block_rejected 64 uuid0 t1 (fresh t0) H) as (H1 & H2 & _).
  split; [exact H1 | exact H2].
Defined.

Lemma new_transaction_frame_witness :
  chain (fresh t0) <> []
  /\ fst (new_transaction "0" "addrA" (Int 1) (fresh t0)) = Returns 2%Z
  /\ chain (snd (new_transaction "0" "addrA" (Int 1) (fresh t0))) = chain (fresh t0).
Proof.
  assert (H : chain (fresh t0) <> []) by discriminate.
  split; [exact H|].
  destruct (new_transaction_frame "0" "addrA" (Int 1) (fresh t0) H)
    as (b & Hb & Hr & _ & Hc).
  split; [|exact Hc].
  rewrite Hr. f_equal. injection Hb as <-. reflexivity.
Defined.

(** ** Test vectors of SHA-256 *)

Example sha256_empty :
  sha256_hex "" = "e3b0c44298fc1c149afbf4c8996fb92427ae41e4649b934ca495991b7852b855".
Proof. vm_compute. reflexivity. Qed.

Example sha256_abc :
  sha256_hex "abc" = "ba7816bf8f01cfea414140de5dae2223b00361a396177a9cb410ff61f20015ad".
Proof. vm_compute. reflexivity. Qed.

Example sha256_two_blocks :
  sha256_hex "abcdbcdecdefdefgefghfghighijhijkijkljklmklmnlmnomnopnopq"
  = "248d6a61d20638b8e5c026930c3e6039a33ce45964ff2167f6ecedd419db06c1".
Proof. vm_compute. reflexivity. Qed.

Example sha256_constants :
  nth 0 SHA256.K 0%N = 0x428a2f98%N /\ nth 63 SHA256.K 0%N = 0xc67178f2%N
  /\ nth 0 SHA256.H0 0%N = 0x6a09e667%N /\ nth 7 SHA256.H0 0%N = 0x5be0cd19%N
  /\ length SHA256.K = 64%nat.
Proof. repeat split. Qed.

(** * Further properties of the ledger and the validator *)

(** ** What a call does to the ledger *)

(** [mine_block] either leaves the ledger as it is or appends the block it
    forged. *)
Lemma mine_block_cases (fuel : nat) (uuid : string) (now : PyFloat) (self : Blockchain) :
  snd (mine_block fuel uuid now self) = self
  \/ exists (b : Block) (p : Z),
       current_transactions self <> []
       /\ last (chain self) = Some b
       /\ proof_of_work fuel b = Returns p
       /\ mine_block fuel uuid now self
          = (Returns (block_mined
                        (stored_block (Z.of_nat (length (chain self)) + 1) now
                           (current_transactions self ++ [reward uuid]) p (hash b))),
             mkBlockchain []
               (chain self
                ++ [stored_block (Z.of_nat (length (chain self)) + 1) now
                      (current_transactions self ++ [reward uuid]) p (hash b)])).
Proof.
  destruct (current_transactions self) as [|t ts] eqn:E.
  { left. rewrite mine_block_nothing by exact E. reflexivity. }
  assert (Hne : current_transactions self <> []) by congruence.
  destruct (last (chain self)) as [b|] eqn:Hl.
  2:{ left. apply last_None in Hl. rewrite mine_block_no_chain by assumption. reflexivity. }
  destruct (proof_of_work_cases fuel b) as [[p Hp]|Hp].
  - right. exists b, p. rewrite <- E.
    repeat split; [exact Hne | exact Hp |].
    exact (mine_block_forged fuel uuid now self b p Hne Hl Hp).
  - left. rewrite (mine_block_stalled fuel uuid now self b Hne Hl Hp). reflexivity.
Qed.

Lemma new_transaction_snd (s r : string) (a : Number) (self : Blockchain) :
  snd (new_transaction s r a self)
  = mkBlockchain (current_transactions self ++ [mkTransaction s r a]) (chain self).
Proof.
  destruct (last (chain self)) as [b|] eqn:Hl.
  - rewrite (new_transaction_some s r a self b Hl). reflexivity.
  - apply last_None in Hl. rewrite (new_transaction_empty s r a self Hl). reflexivity.
Qed.

Lemma run_ops_invariant (P : Blockchain -> Prop) :
  (forall (o : op) (self : Blockchain), P self -> P (snd (run_op o self))) ->
  forall (ops : list op) (self : Blockchain), P self -> P (run_ops ops self).
Proof.
  intros Hstep ops. induction ops as [|o ops IH]; intros self H; [exact H|].
  cbn [run_ops fold_left]. apply IH, Hstep, H.
Qed.

(** X1: a [mine_block] call on a ledger with pending transactions and a last
    block [b], whose search returns [p], appends exactly one block and
    empties the pending buffer.  The block has the next index, the clock's
    reading, the pending transactions followed by the reward, the proof [p],
    [hash b] as previous hash, and its own digest taken with [current_hash]
    still [None]; [p] is valid for the seeds [proof b] and [hash b]. *)
Theorem mine_block_appends (fuel : nat) (uuid : string) (now : PyFloat)
    (self : Blockchain) (b : Block) (p : Z) :
  current_transactions self <> [] ->
  last (chain self) = Some b ->
  proof_of_work fuel b = Returns p ->
  exists block : Block,
    mine_block fuel uuid now self
    = (Returns (block_mined block), mkBlockchain [] (chain self ++ [block]))
    /\ index block = (Z.of_nat (length (chain self)) + 1)%Z
    /\ timestamp block = now
    /\ transactions block = (current_transactions self ++ [reward uuid])%list
    /\ proof block = p
    /\ previous_hash block = hash b
    /\ current_hash block = Some (hash (set_current_hash None block))
    /\ valid_proof (proof b) p (hash b) = true.
Proof.
  intros Hne Hl Hp. eexists. split.
  - exact (mine_block_forged fuel uuid now self b p Hne Hl Hp).
  - repeat split. exact (proj1 (proof_of_work_loop_returns _ _ fuel 0%Z p Hp)).
Qed.

Lemma mine_block_appends_witness :
  exists block : Block,
    snd (mine_block 64 uuid0 t1 (run_ops [SubmitTransaction "0" "addrA" (Int 1)] (fresh t0)))
    = mkBlockchain [] [genesis0; block]
    /\ index block = 2%Z /\ proof block = 31%Z.
Proof.
  destruct (mine_block_appends 64 uuid0 t1
              (mkBlockchain [mkTransaction "0" "addrA" (Int 1)] [genesis0]) genesis0 31%Z)
    as (block & Hm & Hi & _ & _ & Hp & _).
  - discriminate.
  - reflexivity.
  - vm_compute. reflexivity.
  - exists block. split; [|split; [exact Hi | exact Hp]].
    change (run_ops [SubmitTransaction "0" "addrA" (Int 1)] (fresh t0))
      with (mkBlockchain [mkTransaction "0" "addrA" (Int 1)] [genesis0]).
    rewrite Hm. reflexivity.
Defined.

(** X2: when [new_block] is given no previous hash, [None] or the empty
    string alike, it takes the hash of the last block; on an empty chain it
    raises [IndexError] and leaves the ledger as it was. *)
Theorem new_block_falsy_previous_hash (now : PyFloat) (p : Z) (ph : option string)
    (self : Blockchain) :
  ph = None \/ ph = Some "" ->
  match last (chain self) with
  | Some b =>
      exists block : Block,
        new_block now p ph self
        = (Returns block, mkBlockchain [] (chain self ++ [block]))
        /\ previous_hash block = hash b
  | None => new_block now p ph self = (Raises IndexError, self)
  end.
Proof.
  intros Hph.
  assert (Ht : truthy ph = false) by (destruct Hph as [-> | ->]; reflexivity).
  destruct (last (chain self)) as [b|] eqn:Hl.
  - eexists. split; [exact (new_block_linked now p ph self b Ht Hl) | reflexivity].
  - apply last_None in Hl. exact (new_block_unlinked now p ph self Ht Hl).
Qed.

Lemma new_block_falsy_previous_hash_witness :
  new_block t0 100 (Some "") empty_ledger = (Raises IndexError, empty_ledger)
  /\ exists block : Block,
       fst (new_block t1 7 (Some "") (fresh t0)) = Returns block
       /\ previous_hash block = hash genesis0.
Proof.
  split.
  - exact (new_block_falsy_previous_hash t0 100 (Some "") empty_ledger (or_intror eq_refl)).
  - destruct (new_block_falsy_previous_hash t1 7 (Some "") (fresh t0) (or_intror eq_refl))
      as (block & Hb & Hp).
    exists block. rewrite Hb. split; [reflexivity | exact Hp].
Defined.

(** X3: on a ledger with an empty chain [new_transaction] raises
    [IndexError] at [last_block], after the append: the transaction is in
    the pending buffer although the call failed. *)
Theorem new_transaction_appends_before_raising (s r : string) (a : Number)
    (self : Blockchain) :
  chain self = [] ->
  fst (new_transaction s r a self) = Raises IndexError
  /\ current_transactions (snd (new_transaction s r a self))
     = (current_transactions self ++ [mkTransaction s r a])%list
  /\ chain (snd (new_transaction s r a self)) = [].
Proof.
  intros H. rewrite (new_transaction_empty s r a self H). cbn [fst snd chain].
  repeat split. exact H.
Qed.

Lemma new_transaction_appends_before_raising_witness :
  fst (new_transaction "a" "b" (Int 5) empty_ledger) = Raises IndexError
  /\ current_transactions (snd (new_transaction "a" "b" (Int 5) empty_ledger))
     = [mkTransaction "a" "b" (Int 5)].
Proof.
  destruct (new_transaction_appends_before_raising "a" "b" (Int 5) empty_ledger eq_refl)
    as (H1 & H2 & _).
  split; [exact H1 | exact H2].
Defined.

(** ** The validator, link by link *)

Lemma neighbours_cons (x : Block) (l : list Block) (a b : Block) :
  neighbours (x :: l) a b <->
  (a = x /\ head l = Some b) \/ neighbours l a b.
Proof.
  split.
  - intros ([|i] & Ha & Hb); cbn in Ha, Hb.
    + left. injection Ha as <-. split; [reflexivity|]. destruct l; [discriminate|exact Hb].
    + right. exists i. split; assumption.
  - intros [[-> Hh]|(i & Ha & Hb)].
    + exists 0%nat. split; [reflexivity|]. destruct l; [discriminate|exact Hh].
    + exists (S i). split; assumption.
Qed.

Lemma links_neighbours (chain : list Block) :
  links chain = true <->
  forall a b : Block, neighbours chain a b -> valid_link a b = true.
Proof.
  induction chain as [|x l IH].
  - split; [|reflexivity]. intros _ a b (i & Ha & _). discriminate.
  - destruct l as [|y l].
    + split; [|reflexivity]. intros _ a b (i & Ha & Hb).
      destruct i; discriminate.
    + cbn [links]. rewrite valid_links_cons, andb_true_iff, IH. split.
      * intros [Hxy Hl] a b Hn. apply neighbours_cons in Hn as [[-> Hh]|Hn].
        -- injection Hh as <-. exact Hxy.
        -- apply Hl. exact Hn.
      * intros H. split.
        -- apply H. apply neighbours_cons. left. split; reflexivity.
        -- intros a b Hn. apply H. apply neighbours_cons. right. exact Hn.
Qed.

Lemma valid_chain_returns_links (chain : list Block) :
  chain <> [] -> valid_chain chain = Returns (links chain).
Proof.
  destruct chain as [|b0 rest]; [congruence|]. intros _. apply valid_chain_cons.
Qed.

(** X4: whenever [valid_chain] returns a verdict, the verdict is [True]
    exactly when every block's [previous_hash] is the hash of the block
    before it and every block's proof is valid for the proof and the stored
    [current_hash] of the block before it. *)
Theorem valid_chain_verdict (chain : list Block) (v : bool) :
  valid_chain chain = Returns v ->
  (v = true <->
   forall a b : Block,
     neighbours chain a b ->
     previous_hash b = hash a
     /\ valid_proof (proof a) (proof b) (str_of_optional (current_hash a)) = true).
Proof.
  intros Hv. apply valid_chain_links in Hv as [_ <-].
  rewrite links_neighbours. split; intros H a b Hn; specialize (H a b Hn).
  - unfold valid_link in H. apply andb_prop in H as [He Hp].
    split; [apply String.eqb_eq; exact He | exact Hp].
  - destruct H as [He Hp]. unfold valid_link. rewrite Hp, andb_true_r.
    apply String.eqb_eq. exact He.
Qed.

Lemma valid_chain_verdict_witness :
  valid_chain accepted_chain = Returns true
  /\ previous_hash
       (stored_block 2 t1 [mkTransaction "0" "addrA" (Int 1)] 147 (hash genesis0))
     = hash genesis0
  /\ valid_proof (proof genesis0) 147 (str_of_optional (current_hash genesis0)) = true.
Proof.
  assert (Hv : valid_chain accepted_chain = Returns true) by (vm_compute; reflexivity).
  split; [exact Hv|].
  destruct (valid_chain_verdict accepted_chain true Hv) as [H _].
  apply (H eq_refl genesis0
           (stored_block 2 t1 [mkTransaction "0" "addrA" (Int 1)] 147 (hash genesis0))).
  exists 0%nat. split; reflexivity.
Defined.

Lemma neighbours_app_middle (pre mid post : list Block) (a b : Block) :
  neighbours mid a b -> neighbours (pre ++ mid ++ post) a b.
Proof.
  intros (i & Ha & Hb). exists (length pre + i)%nat. split.
  - rewrite lookup_app_r by lia. replace (length pre + i - length pre)%nat with i by lia.
    apply lookup_app_l_Some. exact Ha.
  - rewrite lookup_app_r by lia.
    replace (S (length pre + i) - length pre)%nat with (S i) by lia.
    apply lookup_app_l_Some. exact Hb.
Qed.

(** X5: every stretch of a chain the validator accepts is accepted in
    turn: the checks are local to neighbours, and the first block of a chain
    is checked against nothing. *)
Theorem valid_chain_segment (pre mid post : list Block) :
  valid_chain (pre ++ mid ++ post) = Returns true ->
  mid <> [] ->
  valid_chain mid = Returns true.
Proof.
  intros Hv Hne. apply valid_chain_links in Hv as [_ Hv].
  rewrite (valid_chain_returns_links mid Hne). f_equal.
  apply links_neighbours. intros a b Hn.
  apply (proj1 (links_neighbours _) Hv). apply neighbours_app_middle. exact Hn.
Qed.

Lemma valid_chain_segment_witness :
  valid_chain [genesis0] = Returns true.
Proof.
  apply (valid_chain_segment [] [genesis0] (tl accepted_chain)).
  - vm_compute. reflexivity.
  - discriminate.
Defined.

Lemma valid_links_last (x : Block) (pre : list Block) (b b' : Block) :
  proof b' = proof b ->
  previous_hash b' = previous_hash b ->
  valid_links x (pre ++ [b']) = valid_links x (pre ++ [b]).
Proof.
  intros Hp Hh. revert x. induction pre as [|y pre IH]; intros x; cbn [app valid_links].
  - unfold valid_link. rewrite Hp, Hh. reflexivity.
  - rewrite IH. reflexivity.
Qed.

(** X6: of the last block of a chain the validator reads the proof and the
    previous hash only: whatever its index, timestamp, transactions and
    stored [current_hash] are, the verdict is the same. *)
Theorem valid_chain_last_block (pre : list Block) (b b' : Block) :
  proof b' = proof b ->
  previous_hash b' = previous_hash b ->
  valid_chain (pre ++ [b']) = valid_chain (pre ++ [b]).
Proof.
  intros Hp Hh. destruct pre as [|x pre]; cbn [app].
  - rewrite !valid_chain_cons. reflexivity.
  - rewrite !valid_chain_cons. f_equal. apply valid_links_last; assumption.
Qed.

Lemma valid_chain_last_block_witness :
  valid_chain
    [ genesis0;
      mkBlock 99 t0 [] 147 (hash genesis0) (Some "not a digest") ]
  = Returns true.
Proof.
  etransitivity.
  - exact (valid_chain_last_block [genesis0]
             (stored_block 2 t1 [mkTransaction "0" "addrA" (Int 1)] 147 (hash genesis0))
             (mkBlock 99 t0 [] 147 (hash genesis0) (Some "not a digest"))
             eq_refl eq_refl).
  - vm_compute. reflexivity.
Defined.

(** ** The history of a ledger *)

Lemma neighbours_snoc (l : list Block) (x a b : Block) :
  neighbours (l ++ [x]) a b ->
  neighbours l a b \/ (last l = Some a /\ b = x).
Proof.
  intros (i & Ha & Hb).
  destruct (Nat.lt_ge_cases (S i) (length l)) as [Hlt|Hge].
  - left. exists i. rewrite lookup_app_l in Ha by lia.
    rewrite lookup_app_l in Hb by lia. split; assumption.
  - right. assert (Hi : S i = length l).
    { apply lookup_lt_Some in Hb. rewrite length_app in Hb. cbn in Hb. lia. }
    split.
    + rewrite last_lookup, <- Hi. cbn [pred].
      rewrite lookup_app_l in Ha by lia. exact Ha.
    + rewrite lookup_app_r in Hb by lia. rewrite Hi, Nat.sub_diag in Hb.
      cbn in Hb. congruence.
Qed.

Lemma has_dash_remove_dashes (s : string) : has_dash (remove_dashes s) = false.
Proof.
  induction s as [|c s IH]; [reflexivity|]. cbn [remove_dashes].
  destruct (Ascii.eqb c "-") eqn:E; [exact IH|].
  cbn [has_dash]. rewrite E, IH. reflexivity.
Qed.

Lemma history_inv_fresh (now : PyFloat) : history_inv (fresh now).
Proof.
  unfold history_inv, fresh. rewrite (init_closed_form now). cbn [snd chain].
  split; [|split].
  - exists (stored_block 1 now [] 100 "1"), []. repeat split.
  - intros a b (i & Ha & Hb). destruct i; discriminate.
  - intros [|i] b Hb; cbn in Hb; [|discriminate]. injection Hb as <-. reflexivity.
Qed.

Lemma history_inv_run_op (o : op) (self : Blockchain) :
  history_inv self -> history_inv (snd (run_op o self)).
Proof.
  intros H. rewrite run_op_snd. destruct o as [s r a|fuel uuid now].
  - rewrite new_transaction_snd. exact H.
  - destruct (mine_block_cases fuel uuid now self)
      as [->|(b & p & Hne & Hl & Hp & ->)]; [exact H|].
    destruct H as ((g & rest & Hc & Hg) & Hn & Hs).
    cbn [snd chain]. split; [|split].
    + exists g, (rest ++ [stored_block (Z.of_nat (length (chain self)) + 1) now
                          (current_transactions self ++ [reward uuid]) p (hash b)])%list.
      rewrite Hc. split; [reflexivity | exact Hg].
    + intros x y Hxy. cbn [chain] in Hxy.
      apply neighbours_snoc in Hxy as [Hxy|[Hx ->]]; [apply Hn; exact Hxy|].
      assert (x = b) as -> by congruence.
      destruct (proof_of_work_loop_returns _ _ fuel 0%Z p Hp) as (Hv & Hle & Hmin).
      repeat split; try assumption.
      exists (current_transactions self), uuid. split; [reflexivity | exact Hne].
    + intros i y Hy. cbn [chain] in Hy.
      destruct (Nat.lt_ge_cases i (length (chain self))) as [Hlt|Hge].
      * rewrite lookup_app_l in Hy by exact Hlt. exact (Hs i y Hy).
      * rewrite lookup_app_r in Hy by exact Hge.
        destruct (i - length (chain self))%nat; cbn in Hy; [|discriminate].
        injection Hy as <-. reflexivity.
Qed.

Lemma history_inv_run_ops (now : PyFloat) (ops : list op) :
  history_inv (run_ops ops (fresh now)).
Proof.
  apply (run_ops_invariant history_inv history_inv_run_op), history_inv_fresh.
Qed.

Lemma lookup_neighbour (chain : list Block) (k : nat) (b : Block) :
  chain !! S k = Some b -> exists a, neighbours chain a b.
Proof.
  intros Hb. destruct (chain !! k) as [a|] eqn:Ha.
  - exists a, k. split; assumption.
  - apply lookup_ge_None in Ha. apply lookup_lt_Some in Hb. lia.
Qed.

(** X7: the chain only grows at its end: whatever calls are made, on any
    ledger, the chain before them is an initial segment of the chain after
    them; no block is removed, replaced or reordered. *)
Theorem chain_append_only (ops : list op) (self : Blockchain) :
  chain self `prefix_of` chain (run_ops ops self).
Proof.
  revert self. induction ops as [|o ops IH]; intros self; [reflexivity|].
  cbn [run_ops fold_left]. etransitivity; [|apply IH].
  rewrite run_op_snd. destruct o as [s r a|fuel uuid now].
  - rewrite new_transaction_snd. reflexivity.
  - destruct (mine_block_cases fuel uuid now self) as [->|(b & p & _ & _ & _ & ->)].
    + reflexivity.
    + cbn [snd chain]. apply prefix_app_r. reflexivity.
Qed.

(** X8: in the chain of a ledger, at any time, every block after the first
    carries the hash of the block before it as [previous_hash], and every
    block's stored [current_hash] is the digest of that block taken with
    [current_hash] cleared. *)
Theorem ledger_chain_linked (now : PyFloat) (ops : list op) :
  (forall a b : Block,
      neighbours (chain (run_ops ops (fresh now))) a b -> previous_hash b = hash a)
  /\ (forall (i : nat) (b : Block),
        chain (run_ops ops (fresh now)) !! i = Some b ->
        current_hash b = Some (hash (set_current_hash None b))).
Proof.
  destruct (history_inv_run_ops now ops) as (_ & Hn & Hs). split.
  - intros a b Hab. exact (proj1 (Hn a b Hab)).
  - exact Hs.
Qed.

(** X9: in the chain of a ledger, at any time, the proof of every block
    after the first is the one the search finds for the seeds of the miner,
    the proof and the hash of the block before it: it is not negative, it is
    valid for these seeds, and no smaller candidate is. *)
Theorem ledger_proofs_least (now : PyFloat) (ops : list op) (a b : Block) :
  neighbours (chain (run_ops ops (fresh now))) a b ->
  (0 <= proof b)%Z
  /\ valid_proof (proof a) (proof b) (hash a) = true
  /\ forall q : Z, (0 <= q < proof b)%Z -> valid_proof (proof a) q (hash a) = false.
Proof.
  intros Hab. destruct (history_inv_run_ops now ops) as (_ & Hn & _).
  destruct (Hn a b Hab) as (_ & H0 & Hv & Hmin & _). repeat split; assumption.
Qed.

(** X10: in the chain of a ledger, at any time, the first block is the
    genesis block, with no transactions; every later block holds at least
    two transactions, the last of which is the reward: sender ["0"], amount
    [1], and a recipient without dashes. *)
Theorem ledger_block_contents (now : PyFloat) (ops : list op) :
  (exists g : Block,
      chain (run_ops ops (fresh now)) !! 0%nat = Some g
      /\ transactions g = [] /\ previous_hash g = "1" /\ proof g = 100%Z)
  /\ (forall (k : nat) (b : Block),
        chain (run_ops ops (fresh now)) !! S k = Some b ->
        exists (txs : list Transaction) (t : Transaction),
          transactions b = (txs ++ [t])%list
          /\ txs <> []
          /\ sender t = "0" /\ amount t = Int 1 /\ has_dash (recipient t) = false).
Proof.
  destruct (history_inv_run_ops now ops) as ((g & rest & Hc & _ & Hgp & Hgr & Hgt) & Hn & _).
  split.
  - exists g. rewrite Hc. repeat split; assumption.
  - intros k b Hb. destruct (lookup_neighbour _ k b Hb) as [a Hab].
    destruct (Hn a b Hab) as (_ & _ & _ & _ & txs & uuid & Ht & Hne).
    exists txs, (reward uuid). repeat split; try assumption.
    apply has_dash_remove_dashes.
Qed.

Lemma ledger_proofs_least_witness :
  valid_proof 100 31 (hash genesis0) = true.
Proof.
  set (b := stored_block 2 t1
              [mkTransaction "0" "addrA" (Int 1);
               mkTransaction "0" "3f2b8c1e9d4a4e7b8a6f1c2d3e4f5a6b" (Int 1)]
              31 (hash genesis0)).
  assert (Hn : neighbours (chain (run_ops session (fresh t0))) genesis0 b).
  { exists 0%nat. split; vm_compute; reflexivity. }
  exact (proj1 (proj2 (ledger_proofs_least t0 session genesis0 b Hn))).
Defined.

(** ** No transaction is lost *)

Lemma all_transactions_append (txs d : list Transaction) (chain : list Block) :
  all_transactions (mkBlockchain (txs ++ d) chain)
  = (all_transactions (mkBlockchain txs chain) ++ d)%list.
Proof. unfold all_transactions. cbn [current_transactions]. apply app_assoc. Qed.

Lemma all_transactions_block (self : Blockchain) (block : Block) :
  all_transactions (mkBlockchain [] (chain self ++ [block]))
  = (concat (map transactions (chain self)) ++ transactions block)%list.
Proof.
  unfold all_transactions. cbn [chain current_transactions].
  rewrite map_app, concat_app. cbn [map concat]. rewrite !app_nil_r. reflexivity.
Qed.

(** What one call adds to the transactions of the ledger: the submitted
    transaction, or the reward of the block it mined, or nothing. *)
Lemma run_op_records (o : op) (self : Blockchain) :
  exists d : list Transaction,
    all_transactions (snd (run_op o self)) = (all_transactions self ++ d)%list
    /\ submitted [o] `sublist_of` d
    /\ (length d + length (chain self)
        = length (submitted [o]) + length (chain (snd (run_op o self))))%nat.
Proof.
  rewrite run_op_snd. destruct o as [s r a|fuel uuid now].
  - exists [mkTransaction s r a]. rewrite new_transaction_snd.
    destruct self as [txs ch]. cbn [current_transactions chain submitted].
    split; [apply all_transactions_append|]. split; [reflexivity | cbn; lia].
  - destruct (mine_block_cases fuel uuid now self) as [->|(b & p & _ & _ & _ & ->)].
    + exists []. rewrite app_nil_r. split; [reflexivity|].
      split; [constructor | reflexivity].
    + exists [reward uuid]. cbn [snd]. rewrite all_transactions_block.
      cbn [transactions stored_block set_current_hash chain submitted].
      split; [unfold all_transactions; rewrite !app_assoc; reflexivity|].
      split; [repeat constructor|]. rewrite length_app. cbn. lia.
Qed.

(** X11: no transaction is lost, repeated or reordered.  Whatever calls are
    made, the transactions of the ledger (those of its blocks in chain order,
    then the pending ones) are the ones it had before, followed by new ones;
    the new ones hold the submitted transactions in the order of submission,
    and they are as many as the submitted transactions and the blocks
    appended together (each block brings its reward). *)
Theorem transactions_conserved (ops : list op) (self : Blockchain) :
  exists extra : list Transaction,
    all_transactions (run_ops ops self) = (all_transactions self ++ extra)%list
    /\ submitted ops `sublist_of` extra
    /\ (length extra + length (chain self)
        = length (submitted ops) + length (chain (run_ops ops self)))%nat.
Proof.
  revert self. induction ops as [|o ops IH]; intros self.
  - exists []. cbn [run_ops fold_left submitted]. rewrite app_nil_r.
    split; [reflexivity|]. split; [constructor | reflexivity].
  - destruct (run_op_records o self) as (d & Hd & Hsub & Hlen).
    destruct (IH (snd (run_op o self))) as (extra & He & Hsub' & Hlen').
    exists (d ++ extra)%list. cbn [run_ops fold_left].
    change (fold_left (fun self0 o0 => snd (run_op o0 self0)) ops (snd (run_op o self)))
      with (run_ops ops (snd (run_op o self))).
    assert (Hs : submitted (o :: ops) = (submitted [o] ++ submitted ops)%list)
      by (destruct o; reflexivity).
    split; [rewrite He, Hd, app_assoc; reflexivity|]. rewrite Hs. split.
    + apply sublist_app; assumption.
    + rewrite !length_app. lia.
Qed.

(** ** The pending list is never shared *)

Lemma store_run_op (o : op) (l : Store.Ledger) :
  Store.separate l ->
  Store.separate (StoreOps.run_op o l)
  /\ Store.value (StoreOps.run_op o l) = snd (run_op o (Store.value l)).
Proof.
  intros Hs. rewrite run_op_snd. destruct o as [s r a|fuel uuid now]; cbn [StoreOps.run_op].
  - destruct (StoreFacts.new_transaction_value s r a l Hs) as [Hv Hs'].
    split; [exact Hs'|]. rewrite <- Hv. reflexivity.
  - destruct (StoreFacts.mine_block_value fuel uuid now l Hs) as [Hv Hs'].
    split; [exact Hs'|]. rewrite <- Hv. reflexivity.
Qed.

(** X12: with the transaction lists as objects in a heap, in every ledger
    reached through [__init__], [new_transaction] and [mine_block] no block
    holds the list object that [current_transactions] names ([new_block]
    binds the attribute to a new list after storing the old one in the
    block), so an append to the pending list never shows in a block; read
    through its references, the ledger is the one the value model
    computes. *)
Theorem pending_list_never_shared (now : PyFloat) (ops : list op) :
  Store.separate (StoreOps.run_ops ops (StoreOps.fresh now))
  /\ Store.value (StoreOps.run_ops ops (StoreOps.fresh now)) = run_ops ops (fresh now).
Proof.
  assert (H0 : Store.separate (StoreOps.fresh now)
               /\ Store.value (StoreOps.fresh now) = fresh now).
  { destruct (StoreFacts.init_value now) as [Hv Hs]. split; [exact Hs|].
    unfold fresh. rewrite <- Hv. reflexivity. }
  revert H0. generalize (StoreOps.fresh now) (fresh now).
  induction ops as [|o ops IH]; intros l self [Hs Hv]; [split; assumption|].
  cbn [StoreOps.run_ops run_ops fold_left].
  destruct (store_run_op o l Hs) as [Hs' Hv'].
  apply IH. split; [exact Hs'|]. rewrite Hv', Hv. reflexivity.
Qed.

(** ** The console program *)

Module CliFacts.
Import CliSpec.

Lemma reach_step (env : Cli.Env) (w w' : Cli.World) (o : op) :
  reach env w ->
  Cli.ledger w' = snd (run_op o (Cli.ledger w)) ->
  reach env w'.
Proof.
  intros [ops H] Hstep. exists (ops ++ [o])%list.
  unfold run_ops in *. rewrite fold_left_app. cbn [fold_left]. rewrite <- H. exact Hstep.
Qed.

Lemma reach_same (env : Cli.Env) (w w' : Cli.World) :
  reach env w -> Cli.ledger w' = Cli.ledger w -> reach env w'.
Proof. intros [ops H] Hl. exists ops. rewrite Hl. exact H. Qed.

Lemma reach_inv (env : Cli.Env) (w : Cli.World) :
  reach env w -> ledger_inv (Cli.ledger w).
Proof. intros [ops ->]. apply run_ops_inv, ledger_inv_fresh. Qed.

Lemma print_menu_spec (w : Cli.World) :
  exists out : string,
    Cli.print_menu w = (Cli.Ok tt, Cli.mkWorld (Cli.stdin w) out (Cli.ledger w)).
Proof. eexists. reflexivity. Qed.

Lemma input_spec (prompt : string) (w : Cli.World) :
  (Cli.stdin w = []
   /\ exists out, Cli.input prompt w = (Cli.Stop Cli.EOFError, Cli.mkWorld [] out (Cli.ledger w)))
  \/ (exists line rest out,
        Cli.stdin w = line :: rest
        /\ Cli.input prompt w = (Cli.Ok line, Cli.mkWorld rest out (Cli.ledger w))).
Proof.
  unfold Cli.input. destruct (Cli.stdin w) as [|line rest] eqn:E.
  - left. split; [reflexivity|]. eexists. reflexivity.
  - right. exists line, rest. eexists. split; reflexivity.
Qed.

Lemma print_blocks_spec (blocks : list Block) (w : Cli.World) :
  exists out : string,
    Cli.print_blocks blocks w = (Cli.Ok tt, Cli.mkWorld (Cli.stdin w) out (Cli.ledger w)).
Proof.
  revert w. induction blocks as [|b blocks IH]; intros w.
  - exists (Cli.stdout w). destruct w. reflexivity.
  - cbn [Cli.print_blocks]. unfold Cli.cbind, Cli.print.
    destruct (IH (Cli.mkWorld (Cli.stdin w)
                    (Cli.stdout w ++ Cli.pretty_block b ++ Cli.newline) (Cli.ledger w)))
      as [out Hout].
    exists out. rewrite Hout. reflexivity.
Qed.

Lemma display_chain_advances (env : Cli.Env) (w : Cli.World) :
  reach env w -> advances env w (Cli.display_chain w).
Proof.
  intros Hr. unfold Cli.display_chain.
  destruct (print_blocks_spec (chain (Cli.ledger w)) w) as [out ->].
  split; [exact I|]. split; [apply (reach_same env w); [exact Hr | reflexivity]|].
  reflexivity.
Qed.

(** What [mine_block] of the console does on a ledger whose chain is not
    empty. *)
Lemma mine_block_spec (env : Cli.Env) (w : Cli.World) :
  chain (Cli.ledger w) <> [] ->
  exists (r : Cli.result unit) (out : string),
    Cli.mine_block env w
    = (r, Cli.mkWorld (Cli.stdin w) out
            (snd (mine_block (Cli.fuel env)
                    (Cli.uuid_at env (length (chain (Cli.ledger w))))
                    (Cli.time_at env (length (chain (Cli.ledger w))))
                    (Cli.ledger w))))
    /\ (r = Cli.Ok tt \/ r = Cli.Stop Cli.Stalled).
Proof.
  intros Hne. unfold Cli.mine_block, Cli.cbind, Cli.call.
  set (n := length (chain (Cli.ledger w))).
  destruct (last_is_Some _ _ Hne) as [b Hb].
  destruct (current_transactions (Cli.ledger w)) as [|t ts] eqn:E.
  - rewrite mine_block_nothing by exact E. eexists _, _. split; [reflexivity | left; reflexivity].
  - assert (Hp : current_transactions (Cli.ledger w) <> []) by congruence.
    destruct (proof_of_work_cases (Cli.fuel env) b) as [[p Hpow]|Hpow].
    + rewrite (mine_block_forged _ _ _ _ b p Hp Hb Hpow).
      eexists _, _. split; [reflexivity | left; reflexivity].
    + rewrite (mine_block_stalled _ _ _ _ b Hp Hb Hpow).
      eexists _, _. split; [reflexivity | right; reflexivity].
Qed.

Lemma mine_block_advances (env : Cli.Env) (w : Cli.World) :
  reach env w -> advances env w (Cli.mine_block env w).
Proof.
  intros Hr. pose proof (reach_inv env w Hr) as [Hne _].
  destruct (mine_block_spec env w Hne) as (r & out & -> & Hq).
  split; [destruct Hq as [-> | ->]; exact I|]. split; [|reflexivity].
  eapply (reach_step env w _ (MineBlock _ _ _)); [exact Hr|].
  rewrite run_op_snd. reflexivity.
Qed.

(** What [add_transaction] of the console does on a ledger whose chain is
    not empty: it stops with the ledger untouched, or it reads three lines
    and submits them. *)
Lemma add_transaction_spec (env : Cli.Env) (w : Cli.World) :
  chain (Cli.ledger w) <> [] ->
  (exists (sg : Cli.signal) (rest : list string) (out : string),
      Cli.add_transaction env w = (Cli.Stop sg, Cli.mkWorld rest out (Cli.ledger w))
      /\ (sg = Cli.EOFError \/ sg = Cli.ValueError)
      /\ (length rest <= length (Cli.stdin w))%nat)
  \/ (exists (s r a : string) (f : PyFloat) (rest : list string) (out : string),
        Cli.stdin w = s :: r :: a :: rest
        /\ Cli.to_float env a = Some f
        /\ Cli.add_transaction env w
           = (Cli.Ok tt,
              Cli.mkWorld rest out (snd (new_transaction s r (Float f) (Cli.ledger w))))).
Proof.
  intros Hne. destruct (last_is_Some _ _ Hne) as [b Hb].
  remember (Cli.add_transaction env w) as x eqn:Hx.
  unfold Cli.add_transaction, Cli.cbind, Cli.input, Cli.call, Cli.print in Hx.
  destruct (Cli.stdin w) as [|s [|r [|a rest]]] eqn:E1;
    cbn [Cli.stdin Cli.stdout Cli.ledger] in Hx;
    try (subst x; left; eexists _, _, _; split; [reflexivity|];
         split; [left; reflexivity | cbn; lia]).
  destruct (Cli.to_float env a) as [f|] eqn:Ef.
  - right. exists s, r, a, f, rest.
    cbn [Cli.stdin Cli.stdout Cli.ledger] in Hx.
    rewrite (new_transaction_some s r (Float f) _ b Hb) in Hx. subst x.
    eexists. split; [reflexivity|]. split; [exact Ef|].
    rewrite (new_transaction_some s r (Float f) _ b Hb). reflexivity.
  - subst x. left. eexists _, _, _. split; [reflexivity|].
    split; [right; reflexivity | cbn; lia].
Qed.

Lemma add_transaction_advances (env : Cli.Env) (w : Cli.World) :
  reach env w -> advances env w (Cli.add_transaction env w).
Proof.
  intros Hr. pose proof (reach_inv env w Hr) as [Hne _].
  destruct (add_transaction_spec env w Hne)
    as [(sg & rest & out & -> & Hsg & Hlen)|(s & r & a & f & rest & out & Hin & _ & ->)].
  - split; [destruct Hsg as [-> | ->]; exact I|]. split; [|exact Hlen].
    apply (reach_same env w); [exact Hr | reflexivity].
  - split; [exact I|]. split.
    + eapply (reach_step env w _ (SubmitTransaction s r (Float f))); [exact Hr|].
      rewrite run_op_snd. reflexivity.
    + cbn [snd Cli.stdin]. rewrite Hin. cbn. lia.
Qed.

Lemma cbind_advances (env : Cli.Env) (m k : Cli.C unit) (w : Cli.World) :
  reach env w ->
  advances env w (m w) ->
  (forall w' : Cli.World,
      reach env w' -> (length (Cli.stdin w') <= length (Cli.stdin w))%nat ->
      advances env w (k w')) ->
  advances env w (Cli.cbind m (fun _ => k) w).
Proof.
  intros Hr (Hq & Hr' & Hlen) Hk. unfold Cli.cbind.
  destruct (m w) as [[[]|sg] w']; cbn [fst snd] in *.
  - apply Hk; assumption.
  - split; [exact Hq|]. split; assumption.
Qed.

(** The loop, given more turns than there are lines to read. *)
Lemma main_loop_advances (env : Cli.Env) (turns : nat) (w : Cli.World) :
  reach env w ->
  (length (Cli.stdin w) < turns)%nat ->
  advances env w (Cli.main_loop env turns w).
Proof.
  revert w. induction turns as [|turns IH]; intros w Hr Hlen; [lia|].
  cbn [Cli.main_loop]. unfold Cli.cbind at 1.
  destruct (print_menu_spec w) as [out0 ->].
  unfold Cli.cbind at 1.
  destruct (input_spec "Enter your choice: " (Cli.mkWorld (Cli.stdin w) out0 (Cli.ledger w)))
    as [[_ [out ->]]|(choice & rest & out & Hin & ->)]; cbn [Cli.stdin Cli.ledger] in *.
  { split; [exact I|]. split; [apply (reach_same env w); [exact Hr | reflexivity]|].
    cbn. lia. }
  set (w1 := Cli.mkWorld rest out (Cli.ledger w)).
  assert (Hr1 : reach env w1) by (apply (reach_same env w); [exact Hr | reflexivity]).
  assert (Hlen1 : (length (Cli.stdin w1) < turns)%nat).
  { cbn [w1 Cli.stdin]. rewrite Hin in Hlen. cbn in Hlen. lia. }
  assert (Hle : (length (Cli.stdin w1) <= length (Cli.stdin w))%nat).
  { cbn [w1 Cli.stdin]. rewrite Hin. cbn. lia. }
  assert (Hgo : forall w' : Cli.World,
             reach env w' -> (length (Cli.stdin w') <= length (Cli.stdin w1))%nat ->
             advances env w1 (Cli.main_loop env turns w')).
  { intros w' Hr' Hl'. destruct (IH w' Hr') as (Hq & Hr'' & Hl''); [lia|].
    split; [exact Hq|]. split; [exact Hr''|]. lia. }
  assert (Hup : forall x : Cli.result unit * Cli.World, advances env w1 x -> advances env w x).
  { intros x (Hq & Hr' & Hl'). split; [exact Hq|]. split; [exact Hr'|]. lia. }
  apply Hup.
  destruct (String.eqb choice "1");
    [exact (cbind_advances env _ _ w1 Hr1 (mine_block_advances env w1 Hr1) Hgo)|].
  destruct (String.eqb choice "2");
    [exact (cbind_advances env _ _ w1 Hr1 (add_transaction_advances env w1 Hr1) Hgo)|].
  destruct (String.eqb choice "3");
    [exact (cbind_advances env _ _ w1 Hr1 (display_chain_advances env w1 Hr1) Hgo)|].
  destruct (String.eqb choice "4").
  - split; [exact I|]. split; [apply (reach_same env w1); [exact Hr1 | reflexivity]|].
    reflexivity.
  - apply (cbind_advances env _ _ w1 Hr1); [|exact Hgo].
    split; [exact I|]. split; [apply (reach_same env w1); [exact Hr1 | reflexivity]|].
    reflexivity.
Qed.

Lemma main_advances (env : Cli.Env) (lines : list string) :
  advances env (Cli.mkWorld lines EmptyString empty_ledger) (Cli.main env lines).
Proof.
  unfold Cli.main, Cli.cbind at 1, Cli.call. cbn [Cli.ledger Cli.stdin Cli.stdout].
  rewrite (init_closed_form (Cli.time_at env 0%nat)).
  apply (main_loop_advances env (S (length lines))
           (Cli.mkWorld lines EmptyString
              (mkBlockchain [] [stored_block 1 (Cli.time_at env 0%nat) [] 100 "1"]))).
  - exists []. cbn [run_ops fold_left Cli.ledger]. unfold fresh.
    rewrite (init_closed_form (Cli.time_at env 0%nat)). reflexivity.
  - cbn. lia.
Qed.

End CliFacts.

(** X13: a run of the console program on any input, in any environment,
    ends in one of four ways: normally, after the choice [4]; with
    [EOFError], when the input ends at a prompt; with [ValueError], when
    [float] rejects an amount; or inside a search that does not finish.  No
    [IndexError] of the ledger reaches the user, and the loop needs no more
    turns than the input has lines, plus one. *)
Theorem console_run_ends (env : Cli.Env) (lines : list string) :
  fst (Cli.main env lines) = Cli.Ok tt
  \/ fst (Cli.main env lines) = Cli.Stop Cli.EOFError
  \/ fst (Cli.main env lines) = Cli.Stop Cli.ValueError
  \/ fst (Cli.main env lines) = Cli.Stop Cli.Stalled.
Proof.
  destruct (CliFacts.main_advances env lines) as (Hq & _ & _).
  destruct (fst (Cli.main env lines)) as [[]|[]]; cbn in Hq; try contradiction; auto.
Qed.

(** X14: whatever is typed, the console program changes its ledger through
    [new_transaction] and [mine_block] only: the ledger at the end of a run
    is the ledger constructed at the start after some sequence of these
    calls, so everything that holds after every such sequence holds of
    it. *)
Theorem console_ledger_reachable (env : Cli.Env) (lines : list string) :
  exists ops : list op,
    Cli.ledger (snd (Cli.main env lines)) = run_ops ops (fresh (Cli.time_at env 0%nat)).
Proof.
  destruct (CliFacts.main_advances env lines) as (_ & Hr & _). exact Hr.
Qed.

(** X15: [add_transaction] of the console, on a ledger whose chain is not
    empty, either reads three lines, the third of which [float] accepts, and
    appends exactly that transaction to the pending buffer, or stops with
    [EOFError] or [ValueError] and leaves the ledger as it was: [float] is
    applied before [new_transaction] is called. *)
Theorem console_add_transaction (env : Cli.Env) (w : Cli.World) :
  chain (Cli.ledger w) <> [] ->
  match Cli.add_transaction env w with
  | (Cli.Ok _, w') =>
      exists (s r a : string) (f : PyFloat),
        Cli.stdin w = s :: r :: a :: Cli.stdin w'
        /\ Cli.to_float env a = Some f
        /\ Cli.ledger w'
           = mkBlockchain
               (current_transactions (Cli.ledger w) ++ [mkTransaction s r (Float f)])
               (chain (Cli.ledger w))
  | (Cli.Stop sg, w') =>
      (sg = Cli.EOFError \/ sg = Cli.ValueError) /\ Cli.ledger w' = Cli.ledger w
  end.
Proof.
  intros Hne.
  destruct (CliFacts.add_transaction_spec env w Hne)
    as [(sg & rest & out & -> & Hsg & _)|(s & r & a & f & rest & out & Hin & Hf & ->)].
  - split; [exact Hsg | reflexivity].
  - exists s, r, a, f. cbn [Cli.stdin Cli.ledger].
    split; [exact Hin|]. split; [exact Hf|]. apply new_transaction_snd.
Qed.

Lemma console_add_transaction_witness :
  fst (Cli.add_transaction console_env
         (Cli.mkWorld ["0"; "addrA"; "one"] EmptyString (fresh t0)))
  = Cli.Stop Cli.ValueError
  /\ Cli.ledger (snd (Cli.add_transaction console_env
                        (Cli.mkWorld ["0"; "addrA"; "one"] EmptyString (fresh t0))))
     = fresh t0.
Proof.
  pose proof (console_add_transaction console_env
                (Cli.mkWorld ["0"; "addrA"; "one"] EmptyString (fresh t0))) as H.
  cbn [Cli.ledger] in H. specialize (H ltac:(discriminate)).
  set (x := Cli.add_transaction console_env
              (Cli.mkWorld ["0"; "addrA"; "one"] EmptyString (fresh t0))) in *.
  assert (E : fst x = Cli.Stop Cli.ValueError) by (vm_compute; reflexivity).
  destruct x as [[[]|sg] w']; cbn [fst snd] in *; [discriminate E|].
  destruct H as [_ Hl]. split; [exact E | exact Hl].
Defined.

Lemma append_nil_r (s : string) : s ++ EmptyString = s.
Proof. induction s as [|c s IH]; cbn; [reflexivity | rewrite IH; reflexivity]. Qed.

Lemma concat_cons (x : string) (l : list string) :
  String.concat EmptyString (x :: l) = x ++ String.concat EmptyString l.
Proof. destruct l as [|y l]; cbn; [rewrite append_nil_r; reflexivity | reflexivity]. Qed.

(** X16: [display_chain] prints the blocks of the chain in order, each as
    one [json.dumps(block, indent=4)] document on lines of its own, reads no
    input and leaves the ledger as it is. *)
Theorem console_display_chain (w : Cli.World) :
  Cli.display_chain w
  = (Cli.Ok tt,
     Cli.mkWorld (Cli.stdin w)
       (Cli.stdout w
        ++ String.concat EmptyString
             (map (fun b => Cli.pretty_block b ++ Cli.newline) (chain (Cli.ledger w))))
       (Cli.ledger w)).
Proof.
  unfold Cli.display_chain.
  assert (H : forall (blocks : list Block) (out : string),
             Cli.print_blocks blocks (Cli.mkWorld (Cli.stdin w) out (Cli.ledger w))
             = (Cli.Ok tt,
                Cli.mkWorld (Cli.stdin w)
                  (out ++ String.concat EmptyString
                            (map (fun b => Cli.pretty_block b ++ Cli.newline) blocks))
                  (Cli.ledger w))).
  { induction blocks as [|b blocks IH]; intros out.
    - cbn [Cli.print_blocks map String.concat]. unfold Cli.creturn.
      rewrite append_nil_r. reflexivity.
    - cbn [Cli.print_blocks map]. unfold Cli.cbind, Cli.print.
      cbn [Cli.stdin Cli.stdout Cli.ledger]. rewrite IH, concat_cons.
      rewrite !append_assoc. reflexivity. }
  destruct w as [i o l]. cbn [Cli.stdin Cli.stdout Cli.ledger]. apply H.
Qed.

(** ** The validator on the ledger's own chain *)

(** X17: on the chain of a ledger, at any time, [valid_chain] returns a
    verdict; its hash comparisons all pass, so the verdict is [True] exactly
    when the proof of every block after the first is valid for the proof and
    the stored [current_hash] of the block before it. *)
Theorem own_chain_verdict (now : PyFloat) (ops : list op) :
  exists v : bool,
    valid_chain (chain (run_ops ops (fresh now))) = Returns v
    /\ (v = true <->
        forall a b : Block,
          neighbours (chain (run_ops ops (fresh now))) a b ->
          valid_proof (proof a) (proof b) (str_of_optional (current_hash a)) = true).
Proof.
  destruct (history_inv_run_ops now ops) as ((g & rest & Hc & _) & Hn & _).
  exists (links (chain (run_ops ops (fresh now)))). split.
  - apply valid_chain_returns_links. rewrite Hc. discriminate.
  - rewrite links_neighbours. split; intros H a b Hab; specialize (H a b Hab).
    + unfold valid_link in H. apply andb_prop in H as [_ H]. exact H.
    + unfold valid_link. rewrite H, andb_true_r.
      apply String.eqb_eq. exact (proj1 (Hn a b Hab)).
Qed.

(** ** Digests *)

Lemma land_255_lt (x : N) : (N.land x 0xFF < 256)%N.
Proof.
  change 0xFF%N with (N.ones 8). rewrite N.land_ones. apply N.mod_lt. discriminate.
Qed.

Lemma be_bytes_bounded (n : nat) (x : N) :
  Forall (fun b => (b < 256)%N) (SHA256.be_bytes n x).
Proof.
  induction n as [|n IH]; cbn [SHA256.be_bytes]; constructor; [apply land_255_lt | exact IH].
Qed.

Lemma be_bytes_length (n : nat) (x : N) : length (SHA256.be_bytes n x) = n.
Proof. induction n as [|n IH]; cbn [SHA256.be_bytes length]; [reflexivity | rewrite IH; reflexivity]. Qed.

(** A digest is thirty-two bytes. *)
Lemma digest_bytes (msg : list N) :
  length (SHA256.digest msg) = 32%nat
  /\ Forall (fun b => (b < 256)%N) (SHA256.digest msg).
Proof.
  unfold SHA256.digest.
  destruct (SHA256Facts.final_state_word_state msg) as [Hl _].
  destruct (SHA256.final_state msg) as [|w0 [|w1 [|w2 [|w3 [|w4 [|w5 [|w6 [|w7 [|w8 l]]]]]]]]];
    try discriminate Hl.
  cbn [flat_map]. split.
  - rewrite !length_app, !be_bytes_length. reflexivity.
  - rewrite !Forall_app. repeat split; try apply be_bytes_bounded. constructor.
Qed.

Lemma hex_byte_checked : forallb hex_byte_ok all_ascii = true.
Proof. vm_compute. reflexivity. Qed.

Lemma hex_byte_facts (b : N) :
  (b < 256)%N ->
  String.eqb (SHA256.hex_byte b) "00" = (b =? 0)%N
  /\ forallb is_hex (list_ascii_of_string (SHA256.hex_byte b)) = true
  /\ String.length (SHA256.hex_byte b) = 2%nat.
Proof.
  intros Hb. pose proof hex_byte_checked as H. rewrite forallb_forall in H.
  specialize (H (ascii_of_N b) (all_ascii_complete _)). unfold hex_byte_ok in H.
  rewrite N_ascii_embedding in H by exact Hb.
  apply andb_prop in H as [H H3]. apply andb_prop in H as [H1 H2].
  split; [apply Bool.eqb_prop; exact H1|]. split; [exact H2|].
  apply Nat.eqb_eq. exact H3.
Qed.

Lemma length_append (s1 s2 : string) :
  String.length (s1 ++ s2) = (String.length s1 + String.length s2)%nat.
Proof. induction s1 as [|c s1 IH]; cbn; [reflexivity | rewrite IH; reflexivity]. Qed.

Lemma hexdigest_fold (bs : list N) :
  Forall (fun b => (b < 256)%N) bs ->
  String.length (fold_right (fun b acc => SHA256.hex_byte b ++ acc) EmptyString bs)
  = (2 * length bs)%nat
  /\ forallb is_hex
       (list_ascii_of_string
          (fold_right (fun b acc => SHA256.hex_byte b ++ acc) EmptyString bs)) = true.
Proof.
  induction 1 as [|b bs Hb _ [IHl IHh]]; [split; reflexivity|].
  destruct (hex_byte_facts b Hb) as (_ & Hh & Hl). cbn [fold_right length]. split.
  - rewrite length_append, Hl, IHl. lia.
  - rewrite list_ascii_of_string_app, forallb_app, Hh, IHh. reflexivity.
Qed.

(** X18: every hash of a block is a string of sixty-four lowercase
    hexadecimal digits. *)
Theorem hash_hex64 (block : Block) :
  String.length (hash block) = 64%nat
  /\ forallb is_hex (list_ascii_of_string (hash block)) = true.
Proof.
  unfold hash, sha256_hex, SHA256.hexdigest.
  destruct (digest_bytes (encode (json_block block))) as [Hl Hf].
  destruct (hexdigest_fold _ Hf) as [H1 H2]. rewrite Hl in H1. split; assumption.
Qed.

(** X19: the difficulty is one zero byte: [valid_proof] is [True] exactly
    when the first byte of the SHA-256 digest of the guess is zero. *)
Theorem valid_proof_zero_byte (last_proof proof : Z) (last_hash : string) :
  valid_proof last_proof proof last_hash
  = (nth 0 (SHA256.digest
              (encode (str_of_int last_proof ++ str_of_int proof ++ last_hash))) 0
     =? 0)%N.
Proof.
  unfold valid_proof, sha256_hex, SHA256.hexdigest.
  destruct (digest_bytes (encode (str_of_int last_proof ++ str_of_int proof ++ last_hash)))
    as [Hl Hf].
  destruct (SHA256.digest _) as [|b0 bs]; [discriminate Hl|].
  inversion Hf as [|? ? Hb0 _]; subst.
  cbn [fold_right nth]. rewrite <- (proj1 (hex_byte_facts b0 Hb0)).
  unfold SHA256.hex_byte. cbn [append substring]. 
  destruct (fold_right _ _ bs); reflexivity.
Qed.

(** ** The bytes that are hashed *)

(** [f'{n}'] determines [n]. *)
Lemma str_of_int_inj (x y : Z) : str_of_int x = str_of_int y -> x = y.
Proof.
  unfold str_of_int. intros H. apply DecimalZ.to_int_inj.
  assert (Hnil : forall z : Z, Z.to_int z <> Decimal.Pos Decimal.Nil
                               /\ Z.to_int z <> Decimal.Neg Decimal.Nil).
  { intros [|p|p]; cbn; split; try discriminate; intros [= E];
      exact (DecimalPos.Unsigned.to_uint_nonnil p E). }
  assert (Hx := NilZero.isi (Z.to_int x) (proj1 (Hnil x)) (proj2 (Hnil x))).
  assert (Hy := NilZero.isi (Z.to_int y) (proj1 (Hnil y)) (proj2 (Hnil y))).
  rewrite H in Hx. congruence.
Qed.

(** Strip what two serialisations share at the front, then at the back. *)
Ltac peel H :=
  apply encode_inj in H;
  unfold json_block, Json.object in H;
  cbn [Json.items set_index set_proof
       index timestamp transactions proof previous_hash current_hash] in H;
  rewrite !append_assoc in H;
  repeat (apply append_inv_head in H);
  apply append_inv_tail in H.

(** X20: the bytes [hash] digests change with the two integer fields: two
    blocks that differ in [index] only, or in [proof] only, are serialised
    to different bytes. *)
Theorem serialisation_sensitive (b b' : Block) :
  changed b b' -> encode (json_block b') <> encode (json_block b).
Proof.
  intros [i Hi|p Hp] H; peel H.
  - apply Hi, str_of_int_inj. exact H.
  - apply Hp, str_of_int_inj. exact H.
Qed.

Lemma serialisation_sensitive_witness :
  encode (json_block (set_index 2 genesis0)) <> encode (json_block genesis0).
Proof.
  apply (serialisation_sensitive genesis0 (set_index 2 genesis0)).
  apply changed_index. discriminate.
Defined.

(** ** The guess of [valid_proof] *)

Module DecimalText.
Import DecimalFacts.

Lemma to_uint_head (p : positive) :
  exists h t, to_list (Pos.to_uint p) = h :: t /\ h <> d0.
Proof.
  pose proof (DecimalPos.Unsigned.to_of (Pos.to_uint p)) as H.
  rewrite DecimalPos.Unsigned.of_to in H. cbn [N.to_uint] in H.
  apply (f_equal to_list) in H. rewrite unorm_spec in H.
  destruct (to_list (Pos.to_uint p)) as [|h t] eqn:E.
  - exfalso. apply (DecimalPos.Unsigned.to_uint_nonnil p).
    apply to_list_inj. exact E.
  - exists h, t. split; [reflexivity|]. intros ->.
    unfold lunorm in H. cbn [lnzhead] in H.
    destruct (lnzhead t) as [|x l] eqn:El.
    + injection H as ->. apply (DecimalPos.Unsigned.to_uint_nonzero p).
      apply to_list_inj. exact E.
    + rewrite <- El in H. symmetry in H. exact (lnzhead_neq_d0_head _ _ H).
Qed.

Lemma of_lu_of_list_cons (dg : digits) (l : list digits) :
  DecimalPos.Unsigned.of_lu (of_list (dg :: l))
  = (digit_value dg + 10 * DecimalPos.Unsigned.of_lu (of_list l))%N.
Proof. destruct dg; reflexivity. Qed.

Lemma to_uint_snoc (p : positive) (dg : digits) :
  exists q : positive,
    N.pos q = (digit_value dg + 10 * N.pos p)%N
    /\ Pos.to_uint q = of_list (to_list (Pos.to_uint p) ++ [dg]).
Proof.
  set (u := Pos.to_uint p). set (u' := of_list (to_list u ++ [dg])).
  assert (Hv : Pos.of_uint u' = (digit_value dg + 10 * N.pos p)%N).
  { rewrite DecimalPos.Unsigned.of_uint_alt.
    assert (Hr : Decimal.rev u' = of_list (dg :: to_list (Decimal.rev u))).
    { apply to_list_inj. rewrite rev_spec, to_list_of_list. unfold u'.
      rewrite to_list_of_list, rev_app_distr, rev_spec. reflexivity. }
    rewrite Hr, of_lu_of_list_cons, of_list_to_list.
    rewrite <- DecimalPos.Unsigned.of_uint_alt. unfold u.
    rewrite DecimalPos.Unsigned.of_to. reflexivity. }
  destruct (digit_value dg + 10 * N.pos p)%N as [|q] eqn:Eq; [lia|].
  exists q. split; [reflexivity|].
  pose proof (DecimalPos.Unsigned.to_of u') as H. rewrite Hv in H. cbn [N.to_uint] in H.
  rewrite H. apply to_list_inj. rewrite unorm_spec. unfold u'. rewrite to_list_of_list.
  destruct (to_uint_head p) as (h & t & Hht & Hh). fold u in Hht. rewrite Hht.
  cbn [app]. unfold lunorm. rewrite lnzhead_head_nd0 by exact Hh. reflexivity.
Qed.

Lemma string_of_list_app (l l' : list digits) :
  NilEmpty.string_of_uint (of_list (l ++ l'))
  = NilEmpty.string_of_uint (of_list l) ++ NilEmpty.string_of_uint (of_list l').
Proof.
  induction l as [|dg l IH]; [reflexivity|].
  destruct dg; cbn; rewrite IH; reflexivity.
Qed.

Lemma string_of_uint_nonnil (u : Decimal.uint) :
  u <> Decimal.Nil -> NilZero.string_of_uint u = NilEmpty.string_of_uint u.
Proof. destruct u; [congruence | reflexivity..]. Qed.

End DecimalText.

Lemma str_of_int_digit (d : Z) :
  (0 <= d <= 9)%Z ->
  str_of_int d = NilEmpty.string_of_uint (DecimalFacts.of_list [digit_of d])
  /\ Z.of_N (digit_value (digit_of d)) = d.
Proof.
  intros H.
  assert (d = 0 \/ d = 1 \/ d = 2 \/ d = 3 \/ d = 4 \/ d = 5 \/ d = 6 \/ d = 7 \/ d = 8 \/ d = 9)%Z
    as Hd by lia.
  repeat (destruct Hd as [-> | Hd]; [split; reflexivity|]). subst d. split; reflexivity.
Qed.

(** A decimal rendering followed by a digit is the rendering of ten times
    the number plus the digit. *)
Lemma str_of_int_snoc (a d : Z) :
  (0 < a)%Z -> (0 <= d <= 9)%Z ->
  str_of_int (10 * a + d) = str_of_int a ++ str_of_int d.
Proof.
  intros Ha Hd. destruct a as [|p|p]; try lia.
  destruct (str_of_int_digit d Hd) as [Hs Hv].
  destruct (DecimalText.to_uint_snoc p (digit_of d)) as (q & Hq & Hu).
  assert (Hz : (10 * Z.pos p + d)%Z = Z.pos q).
  { apply (f_equal Z.of_N) in Hq. rewrite N2Z.inj_add, N2Z.inj_mul, Hv in Hq.
    cbn [Z.of_N] in Hq. lia. }
  rewrite Hz, Hs. unfold str_of_int. cbn [Z.to_int NilZero.string_of_int].
  rewrite !DecimalText.string_of_uint_nonnil by apply DecimalPos.Unsigned.to_uint_nonnil.
  rewrite Hu, DecimalText.string_of_list_app, DecimalFacts.of_list_to_list. reflexivity.
Qed.

(** X21: the guess of [valid_proof] is the three texts end to end, with no
    mark between them, so different seeds and candidates give the same
    guess and the same verdict: a last digit of [last_proof] can be read as
    the first digit of [proof], and a last digit of [proof] as the first
    character of [last_hash].  For instance [(12, 3)] and [(1, 23)] are
    checked alike. *)
Theorem valid_proof_unmarked (a d e : Z) (last_hash : string) :
  (0 < a)%Z -> (1 <= d <= 9)%Z -> (0 <= e <= 9)%Z ->
  valid_proof (10 * a + d) e last_hash = valid_proof a (10 * d + e) last_hash
  /\ valid_proof e (10 * a + d) last_hash
     = valid_proof e a (str_of_int d ++ last_hash).
Proof.
  intros Ha Hd He. unfold valid_proof.
  rewrite (str_of_int_snoc a d) by lia. rewrite (str_of_int_snoc d e) by lia.
  rewrite !append_assoc. split; reflexivity.
Qed.

Lemma valid_proof_unmarked_witness :
  valid_proof 12 3 (hash genesis0) = valid_proof 1 23 (hash genesis0).
Proof.
  exact (proj1 (valid_proof_unmarked 1 2 3 (hash genesis0)
                  ltac:(lia) ltac:(lia) ltac:(lia))).
Defined.
